(** * A MIPS peephole optimizer and its line parser

    Shallow embedding of [src/parser/mips_parser.py] and
    [src/optimizer/peephole.py], with the properties of the intermediate
    representation, of the three rewrite patterns and of the single
    left-to-right pass.

    Python strings are modelled by [string]; a character is read as the code
    point of the same number (0..255).  Python exceptions are modelled by an
    error monad: every subscript [l[k]] and every attribute access on the
    union [Instruction | Label] can fail exactly where Python raises. *)

From Stdlib Require Import List String Ascii Bool Arith Lia.
From Equations Require Import Equations.
Import ListNotations.
Open Scope string_scope.
Open Scope list_scope.
Open Scope nat_scope.

Set Implicit Arguments.

(** ** Exceptions *)

Inductive exn : Type :=
| IndexError
| AttributeError.

Inductive result (A : Type) : Type :=
| Ok (a : A)
| Raise (e : exn).
Arguments Ok {A} a.
Arguments Raise {A} e.

Definition bind {A B} (m : result A) (k : A -> result B) : result B :=
  match m with
  | Ok a => k a
  | Raise e => Raise e
  end.

Notation "x <- m ;; k" := (bind m (fun x => k))
  (at level 61, m at next level, right associativity).

(** Python's short-circuit [and] on conditions that may raise: the right
    operand is evaluated only when the left one is true. *)
Definition and_then (a b : result bool) : result bool :=
  x <- a ;; if x then b else Ok false.
Infix "&&&" := and_then (at level 40, left associativity).

(** The subscript [l[k]] for a non-negative [k]. *)
Definition get_item {A} (l : list A) (k : nat) : result A :=
  match nth_error l k with
  | Some x => Ok x
  | None => Raise IndexError
  end.

(** ** Data model (mips_parser.py) *)

Record Instruction : Type := mkInstruction {
  opcode : string;
  args : list string;
  comment : option string;
  original_text : option string
}.

Record Label : Type := mkLabel {
  name : string;
  instruction : option Instruction
}.

(** An element of the IR: the union [Instruction | Label]. *)
Inductive element : Type :=
| Instr (i : Instruction)
| Lbl (l : Label).

Definition isinstance_Instruction (e : element) : bool :=
  match e with
  | Instr _ => true
  | Lbl _ => false
  end.

(** Attribute access on an element: a [Label] has no [opcode], [args] or
    [original_text]. *)
Definition get_opcode (e : element) : result string :=
  match e with
  | Instr i => Ok (opcode i)
  | Lbl _ => Raise AttributeError
  end.

Definition get_args (e : element) : result (list string) :=
  match e with
  | Instr i => Ok (args i)
  | Lbl _ => Raise AttributeError
  end.

Definition get_original_text (e : element) : result (option string) :=
  match e with
  | Instr i => Ok (original_text i)
  | Lbl _ => Raise AttributeError
  end.

(** What an f-string prints for an [Optional[str]]. *)
Definition format_opt (o : option string) : string :=
  match o with
  | Some s => s
  | None => "None"
  end.

(** ** The patterns (peephole.py) *)

Definition matcher : Type := list element -> result nat.
Definition transformer : Type := list element -> result (list element).

Definition _match_add_zero : matcher := fun instructions =>
  if List.length instructions <? 1 then Ok 0 else
  e0 <- get_item instructions 0 ;;
  if negb (isinstance_Instruction e0) then Ok 0 else
  let instr := e0 in
  c <- (op <- get_opcode instr ;; Ok (op =? "add")%string)
       &&& (a <- get_args instr ;; Ok (List.length a =? 3))
       &&& (a <- get_args instr ;; a2 <- get_item a 2 ;; Ok (a2 =? "$zero")%string) ;;
  if c then Ok 1 else Ok 0.

Definition _transform_add_zero : transformer := fun instructions =>
  instr <- get_item instructions 0 ;;
  a <- get_args instr ;; a0 <- get_item a 0 ;;
  a <- get_args instr ;; a1 <- get_item a 1 ;;
  t <- get_original_text instr ;;
  Ok [Instr (mkInstruction "move" [a0; a1]
               (Some ("Optimized from: " ++ format_opt t)%string) None)].

Definition _match_redundant_move : matcher := fun instructions =>
  if List.length instructions <? 2 then Ok 0 else
  e0 <- get_item instructions 0 ;;
  e1 <- get_item instructions 1 ;;
  if negb (isinstance_Instruction e0) || negb (isinstance_Instruction e1)
  then Ok 0 else
  let first := e0 in
  let second := e1 in
  c <- (op <- get_opcode first ;; Ok (op =? "move")%string)
       &&& (op <- get_opcode second ;; Ok (op =? "add")%string)
       &&& (a <- get_args second ;; Ok (List.length a =? 3))
       &&& (a <- get_args second ;; a2 <- get_item a 2 ;; Ok (a2 =? "$zero")%string)
       &&& (a <- get_args first ;; f0 <- get_item a 0 ;;
            b <- get_args second ;; s1 <- get_item b 1 ;; Ok (f0 =? s1)%string) ;;
  if c then Ok 2 else Ok 0.

Definition _transform_redundant_move : transformer := fun instructions =>
  e1 <- get_item instructions 1 ;; a <- get_args e1 ;; d <- get_item a 0 ;;
  e0 <- get_item instructions 0 ;; b <- get_args e0 ;; s <- get_item b 1 ;;
  e0 <- get_item instructions 0 ;; t0 <- get_original_text e0 ;;
  e1 <- get_item instructions 1 ;; t1 <- get_original_text e1 ;;
  Ok [Instr (mkInstruction "move" [d; s]
               (Some ("Optimized from: " ++ format_opt t0 ++ " and "
                        ++ format_opt t1)%string) None)].

Definition _match_redundant_load_store : matcher := fun instructions =>
  if List.length instructions <? 2 then Ok 0 else
  e0 <- get_item instructions 0 ;;
  e1 <- get_item instructions 1 ;;
  if negb (isinstance_Instruction e0) || negb (isinstance_Instruction e1)
  then Ok 0 else
  let store := e0 in
  let load := e1 in
  c <- (op <- get_opcode store ;; Ok (op =? "sw")%string)
       &&& (op <- get_opcode load ;; Ok (op =? "lw")%string)
       &&& (a <- get_args store ;; s1 <- get_item a 1 ;;
            b <- get_args load ;; l1 <- get_item b 1 ;; Ok (s1 =? l1)%string) ;;
  if c then Ok 2 else Ok 0.

Definition _transform_redundant_load_store : transformer := fun instructions =>
  store <- get_item instructions 0 ;;
  load <- get_item instructions 1 ;;
  a <- get_args load ;; l0 <- get_item a 0 ;;
  b <- get_args store ;; s0 <- get_item b 0 ;;
  t <- get_original_text load ;;
  Ok [store;
      Instr (mkInstruction "move" [l0; s0]
               (Some ("Optimized from: " ++ format_opt t)%string) None)].

(** [self.patterns], in registration order. *)
Definition patterns : list (matcher * transformer) :=
  [ (_match_add_zero, _transform_add_zero);
    (_match_redundant_move, _transform_redundant_move);
    (_match_redundant_load_store, _transform_redundant_load_store) ].

(** ** The pass (PeepholeOptimizer.optimize) *)

(** The inner [for] loop at cursor [i]: the first pattern whose matcher
    returns a positive length is transformed on the slice
    [instructions[i:i + match_length]]; [None] when the loop ends without a
    [break]. *)
Fixpoint try_patterns (pats : list (matcher * transformer))
    (instructions : list element) (i : nat)
  : result (option (nat * list element)) :=
  match pats with
  | [] => Ok None
  | (match_fn, transform_fn) :: pats' =>
      match_length <- match_fn (skipn i instructions) ;;
      if 0 <? match_length then
        transformed <-
          transform_fn (firstn match_length (skipn i instructions)) ;;
        Ok (Some (match_length, transformed))
      else try_patterns pats' instructions i
  end.

Lemma try_patterns_positive pats instructions i n t :
  try_patterns pats instructions i = Ok (Some (n, t)) -> 0 < n.
Proof.
  induction pats as [|[m f] pats IH]; simpl; [discriminate|].
  destruct (m (skipn i instructions)) as [k|e]; simpl; [|discriminate].
  destruct (0 <? k) eqn:Hk; [|exact IH].
  destruct (f _); simpl; [|discriminate].
  intros H; injection H as <- _. now apply Nat.ltb_lt.
Qed.

Definition inspect {A} (a : A) : {b : A | a = b} := exist _ a eq_refl.

(** The [while i < len(instructions)] loop, with its two variables [i] and
    [optimized]. *)
Equations? optimize_loop (pats : list (matcher * transformer))
    (instructions : list element) (i : nat) (optimized : list element)
  : result (list element) by wf (List.length instructions - i) lt :=
  optimize_loop pats instructions i optimized with lt_dec i (List.length instructions) := {
    | right _ => Ok optimized
    | left Hlt with inspect (try_patterns pats instructions i) := {
        | exist _ (Raise e) _ => Raise e
        | exist _ (Ok (Some (match_length, transformed))) Heq =>
            optimize_loop pats instructions (i + match_length)
              (optimized ++ transformed)
        | exist _ (Ok None) _ with nth_error instructions i := {
            | Some x => optimize_loop pats instructions (i + 1) (optimized ++ [x])
            | None => Raise IndexError } } }.
Proof.
  - apply try_patterns_positive in Heq. lia.
  - lia.
Qed.

Definition optimize_with (pats : list (matcher * transformer))
    (instructions : list element) : result (list element) :=
  optimize_loop pats instructions 0 [].

Definition optimize : list element -> result (list element) :=
  optimize_with patterns.

(** ** Python string operations used by the parser *)

Definition code (c : ascii) : nat := nat_of_ascii c.

Definition in_range (lo hi : nat) (c : ascii) : bool :=
  (lo <=? code c) && (code c <=? hi).

(** [str.isspace] on one character, which is also what [\s] matches:
    TAB..CR, FS..US, space, NEL and the no-break space. *)
Definition isspace (c : ascii) : bool :=
  in_range 9 13 c || in_range 28 32 c || (code c =? 133) || (code c =? 160).

(** The line boundaries of [str.splitlines]: LF, VT, FF, CR, FS, GS, RS and
    NEL. *)
Definition is_linebreak (c : ascii) : bool :=
  in_range 10 13 c || in_range 28 30 c || (code c =? 133).

(** The classes [a-zA-Z], [a-zA-Z_] and [a-zA-Z0-9_]. *)
Definition is_alpha (c : ascii) : bool :=
  in_range 65 90 c || in_range 97 122 c.

Definition is_ident_start (c : ascii) : bool :=
  is_alpha c || (code c =? 95).

Definition is_ident_char (c : ascii) : bool :=
  is_alpha c || in_range 48 57 c || (code c =? 95).

Fixpoint take_while (p : ascii -> bool) (s : string) : string :=
  match s with
  | String c r => if p c then String c (take_while p r) else EmptyString
  | EmptyString => EmptyString
  end.

Fixpoint drop_while (p : ascii -> bool) (s : string) : string :=
  match s with
  | String c r => if p c then drop_while p r else s
  | EmptyString => EmptyString
  end.

Definition lstrip (s : string) : string := drop_while isspace s.

Fixpoint rstrip (s : string) : string :=
  match s with
  | EmptyString => EmptyString
  | String c r =>
      match rstrip r with
      | EmptyString => if isspace c then EmptyString else String c EmptyString
      | r' => String c r'
      end
  end.

(** [s.strip()] *)
Definition strip (s : string) : string := rstrip (lstrip s).

(** [c.lower()] on the code points below 256: the ASCII capitals and the
    Latin-1 capitals (all of 192..222 but the multiplication sign). *)
Definition lower_char (c : ascii) : ascii :=
  if in_range 65 90 c || (in_range 192 222 c && negb (code c =? 215))
  then ascii_of_nat (code c + 32) else c.

Fixpoint lower (s : string) : string :=
  match s with
  | EmptyString => EmptyString
  | String c r => String (lower_char c) (lower r)
  end.

(** [s.split(',')]: always at least one piece. *)
Fixpoint split_comma (s : string) : list string :=
  match s with
  | EmptyString => [EmptyString]
  | String c r =>
      if (code c =? 44) then EmptyString :: split_comma r
      else match split_comma r with
           | piece :: pieces => String c piece :: pieces
           | [] => [String c EmptyString]
           end
  end.

(** [text.splitlines()], with [cur] the line read so far: a boundary ends
    the line (CR LF counting as one boundary); at the end of the text a last
    line is produced only when it is not empty. *)
Fixpoint splitlines_from (cur : string) (s : string) : list string :=
  match s with
  | EmptyString =>
      match cur with
      | EmptyString => []
      | _ => [cur]
      end
  | String c r =>
      if code c =? 13 then
        match r with
        | String c' r' =>
            if code c' =? 10 then cur :: splitlines_from EmptyString r'
            else cur :: splitlines_from EmptyString r
        | EmptyString => cur :: splitlines_from EmptyString r
        end
      else if is_linebreak c then cur :: splitlines_from EmptyString r
      else splitlines_from (cur ++ String c EmptyString)%string r
  end.

Definition splitlines (text : string) : list string :=
  splitlines_from EmptyString text.

Definition is_empty (s : string) : bool :=
  match s with
  | EmptyString => true
  | String _ _ => false
  end.

(** ** The three regular expressions (MIPSParser._initialize_patterns)

    They are only ever matched against a line of [splitlines] or a part of
    one, which contains no line feed; on such a string [.] matches every
    character and [$] matches at the end only.  Each function returns the
    groups of [re.match], [None] when there is no match. *)

(** The comment pattern [^\s*#.*$]. *)
Definition comment_pattern_match (line : string) : bool :=
  match lstrip line with
  | String c _ => code c =? 35
  | EmptyString => false
  end.

(** The label pattern [^\s*(NAME):\s*(REST)$], where NAME is
    [[a-zA-Z_][a-zA-Z0-9_]*] and REST is [.*]; the result is the pair of
    groups.  The greedy NAME must be followed by the colon: giving
    characters back cannot help, since the character after a shorter NAME is
    an identifier character. *)
Definition label_pattern_match (line : string) : option (string * string) :=
  match lstrip line with
  | String c r =>
      if is_ident_start c then
        match drop_while is_ident_char r with
        | String c' r' =>
            if code c' =? 58
            then Some (String c (take_while is_ident_char r), lstrip r')
            else None
        | EmptyString => None
        end
      else None
  | EmptyString => None
  end.

(** The text before the first [#] and the text after it. *)
Fixpoint split_hash (s : string) : option (string * string) :=
  match s with
  | EmptyString => None
  | String c r =>
      if code c =? 35 then Some (EmptyString, r)
      else match split_hash r with
           | Some (before, after) => Some (String c before, after)
           | None => None
           end
  end.

(** The instruction pattern [^\s*(OP)\s*(ARGS)(?:\s*#\s*(NOTE))?$], where
    OP is [[a-zA-Z]+], ARGS is the lazy [[^#]*?] and NOTE is [.*]; the
    result is the triple of groups.  After the greedy OP and white space,
    the lazy ARGS grows until the rest is white space followed by [#], or
    the end of the line: with a [#] it is the text before the first [#]
    without its trailing white space, and NOTE is the text after the [#]
    and the white space that follows it; without one it is the whole rest
    and NOTE is unset. *)
Definition instruction_pattern_match (line : string)
  : option (string * string * option string) :=
  let s := lstrip line in
  let op := take_while is_alpha s in
  if is_empty op then None else
  let r := lstrip (drop_while is_alpha s) in
  match split_hash r with
  | Some (before, after) => Some (op, rstrip before, Some (lstrip after))
  | None => Some (op, r, None)
  end.

(** ** MIPSParser *)

Definition _parse_instruction (line : string) : option Instruction :=
  match instruction_pattern_match line with
  | None => None
  | Some (opcode, args_str, comment) =>
      let args :=
        map strip
          (filter (fun arg => negb (is_empty (strip arg)))
                  (split_comma args_str)) in
      Some (mkInstruction
              (lower (strip opcode))
              args
              (match comment with
               | Some c => if is_empty c then None else Some (strip c)
               | None => None
               end)
              (Some line))
  end.

(** [Label] objects are mutable and shared between the list and the table,
    so they live in a store and are referred to by address; [Instruction]s
    are never mutated and are kept by value. *)
Inductive ir_ref : Type :=
| RInstr (i : Instruction)
| RLabel (addr : nat).

Record MIPSParser : Type := mkParser {
  store : list Label;
  labels : list (string * nat);
  instructions : list ir_ref
}.

(** [d[k] = v] on a table kept in insertion order. *)
Fixpoint dict_set (d : list (string * nat)) (k : string) (v : nat)
  : list (string * nat) :=
  match d with
  | [] => [(k, v)]
  | (k', v') :: d' =>
      if (k' =? k)%string then (k, v) :: d' else (k', v') :: dict_set d' k v
  end.

Fixpoint dict_get (d : list (string * nat)) (k : string) : option nat :=
  match d with
  | [] => None
  | (k', v) :: d' => if (k' =? k)%string then Some v else dict_get d' k
  end.

(** [label.instruction = instr] on the object at [addr]. *)
Fixpoint set_instruction (st : list Label) (addr : nat) (instr : Instruction)
  : list Label :=
  match st, addr with
  | [], _ => []
  | l :: st', 0 => mkLabel (name l) (Some instr) :: st'
  | l :: st', S a => l :: set_instruction st' a instr
  end.

(** The body of the [for line in text.splitlines()] loop. *)
Definition parse_line (self : MIPSParser) (raw : string) : MIPSParser :=
  let line := strip raw in
  if is_empty line || comment_pattern_match line then self else
  match label_pattern_match line with
  | Some (label_name, rest) =>
      let label := List.length (store self) in
      let self :=
        mkParser (store self ++ [mkLabel label_name None])
                 (dict_set (labels self) label_name label)
                 (instructions self ++ [RLabel label]) in
      if negb (is_empty (strip rest)) then
        match _parse_instruction rest with
        | Some instr =>
            mkParser (set_instruction (store self) label instr)
                     (labels self)
                     (instructions self ++ [RInstr instr])
        | None => self
        end
      else self
  | None =>
      match _parse_instruction line with
      | Some instr =>
          mkParser (store self) (labels self)
                   (instructions self ++ [RInstr instr])
      | None => self
      end
  end.

(** The state after [self.instructions.clear(); self.labels.clear()]. *)
Definition cleared : MIPSParser := mkParser [] [] [].

Definition parse_lines (lines : list string) : MIPSParser :=
  fold_left parse_line lines cleared.

(** The value of an element of [self.instructions]. *)
Definition deref (st : list Label) (r : ir_ref) : element :=
  match r with
  | RInstr i => Instr i
  | RLabel addr => Lbl (nth addr st (mkLabel EmptyString None))
  end.

Definition contents (self : MIPSParser) : list element :=
  map (deref (store self)) (instructions self).

Definition parse_text (text : string) : list element :=
  contents (parse_lines (splitlines text)).

(** [get_label] after [parse_text text]. *)
Definition get_label (self : MIPSParser) (label_name : string) : option Label :=
  match dict_get (labels self) label_name with
  | Some addr => nth_error (store self) addr
  | None => None
  end.

Definition LF : string := String (ascii_of_nat 10) EmptyString.

(** ** The loop, equationally *)

Lemma optimize_loop_step pats instructions i optimized :
  optimize_loop pats instructions i optimized =
  if i <? List.length instructions then
    match try_patterns pats instructions i with
    | Raise e => Raise e
    | Ok (Some (n, t)) =>
        optimize_loop pats instructions (i + n) (optimized ++ t)
    | Ok None =>
        match nth_error instructions i with
        | Some x => optimize_loop pats instructions (i + 1) (optimized ++ [x])
        | None => Raise IndexError
        end
    end
  else Ok optimized.
Proof.
  rewrite optimize_loop_equation_1.
  destruct (lt_dec i (List.length instructions)) as [H|H].
  - rewrite (proj2 (Nat.ltb_lt _ _) H).
    unfold optimize_loop_unfold_clause_1.
    destruct (inspect (try_patterns pats instructions i)) as [r e].
    destruct r as [ [ [n t] | ] | err ]; cbn;
      try destruct (nth_error instructions i); cbn; rewrite e; reflexivity.
  - rewrite (proj2 (Nat.ltb_nlt _ _) H). reflexivity.
Qed.

(** The accumulator [optimized] is only ever appended to. *)
Lemma optimize_loop_acc pats instructions :
  forall k i optimized, List.length instructions - i <= k ->
    optimize_loop pats instructions i optimized =
    r <- optimize_loop pats instructions i [] ;; Ok (optimized ++ r).
Proof.
  induction k as [|k IH]; intros i optimized Hk;
    rewrite (optimize_loop_step pats instructions i optimized),
            (optimize_loop_step pats instructions i []).
  - replace (i <? List.length instructions) with false
      by (symmetry; apply Nat.ltb_ge; lia).
    simpl. now rewrite app_nil_r.
  - destruct (i <? List.length instructions) eqn:Hi;
      [|simpl; now rewrite app_nil_r].
    apply Nat.ltb_lt in Hi.
    destruct (try_patterns pats instructions i) as [ [ [n t] | ] | err ] eqn:Ht;
      [| |reflexivity].
    + pose proof (try_patterns_positive _ _ _ Ht) as Hn.
      rewrite (IH (i + n) (optimized ++ t)) by lia.
      rewrite (IH (i + n) ([] ++ t)) by lia.
      destruct (optimize_loop pats instructions (i + n) []); simpl;
        [now rewrite app_assoc | reflexivity].
    + destruct (nth_error instructions i) as [x|]; [|reflexivity].
      rewrite (IH (i + 1) (optimized ++ [x])) by lia.
      rewrite (IH (i + 1) ([] ++ [x])) by lia.
      destruct (optimize_loop pats instructions (i + 1) []); simpl;
        [now rewrite <- app_assoc | reflexivity].
Qed.

(** The matchers and transformers only ever see the suffix at the cursor. *)
Lemma try_patterns_skipn pats instructions i :
  try_patterns pats instructions i = try_patterns pats (skipn i instructions) 0.
Proof.
  induction pats as [|[m f] pats IH]; simpl; [reflexivity|].
  now rewrite IH.
Qed.

Lemma optimize_loop_skipn pats :
  forall k instructions i, List.length instructions - i <= k ->
    optimize_loop pats instructions i [] =
    optimize_loop pats (skipn i instructions) 0 [].
Proof.
  induction k as [|k IH]; intros instructions i Hk;
    rewrite (optimize_loop_step pats instructions i []),
            (optimize_loop_step pats (skipn i instructions) 0 []);
    rewrite length_skipn, <- try_patterns_skipn.
  - replace (i <? List.length instructions) with false
      by (symmetry; apply Nat.ltb_ge; lia).
    replace (0 <? List.length instructions - i) with false
      by (symmetry; apply Nat.ltb_ge; lia).
    reflexivity.
  - destruct (i <? List.length instructions) eqn:Hi.
    2:{ apply Nat.ltb_ge in Hi.
        replace (0 <? List.length instructions - i) with false
          by (symmetry; apply Nat.ltb_ge; lia).
        reflexivity. }
    apply Nat.ltb_lt in Hi.
    replace (0 <? List.length instructions - i) with true
      by (symmetry; apply Nat.ltb_lt; lia).
    assert (Hsk : forall n, 0 < n ->
      forall acc, optimize_loop pats instructions (i + n) acc =
                  optimize_loop pats (skipn i instructions) (0 + n) acc).
    { intros n Hn acc.
      rewrite (optimize_loop_acc pats instructions (k := k)) by lia.
      rewrite (optimize_loop_acc pats (skipn i instructions)
                 (k := List.length (skipn i instructions))) by lia.
      rewrite (IH instructions (i + n)) by lia.
      rewrite (IH (skipn i instructions) (0 + n))
        by (rewrite length_skipn; lia).
      simpl. rewrite skipn_skipn. now rewrite (Nat.add_comm n i). }
    destruct (try_patterns pats instructions i) as [ [ [n t] | ] | err ] eqn:Ht;
      [| |reflexivity].
    + apply Hsk. eapply try_patterns_positive; eauto.
    + replace (nth_error (skipn i instructions) 0)
        with (nth_error instructions i)
        by (rewrite nth_error_skipn; f_equal; lia).
      destruct (nth_error instructions i); [|reflexivity].
      apply Hsk. lia.
Qed.

Lemma optimize_with_nil pats : optimize_with pats [] = Ok [].
Proof. reflexivity. Qed.

(** One turn of the [while] loop, seen from the suffix at the cursor. *)
Lemma optimize_with_cons pats x rest :
  optimize_with pats (x :: rest) =
  match try_patterns pats (x :: rest) 0 with
  | Raise e => Raise e
  | Ok (Some (n, t)) =>
      r <- optimize_with pats (skipn n (x :: rest)) ;; Ok (t ++ r)
  | Ok None => r <- optimize_with pats rest ;; Ok (x :: r)
  end.
Proof.
  unfold optimize_with at 1.
  rewrite optimize_loop_step.
  change (0 <? List.length (x :: rest)) with true. cbv iota.
  destruct (try_patterns pats (x :: rest) 0) as [ [ [n t] | ] | err ] eqn:Ht;
    [| |reflexivity].
  - rewrite (optimize_loop_acc pats (x :: rest)
               (k := List.length (x :: rest))) by lia.
    rewrite (optimize_loop_skipn pats (k := List.length (x :: rest))
               (x :: rest)) by lia.
    reflexivity.
  - change (nth_error (x :: rest) 0) with (Some x). cbv iota.
    rewrite (optimize_loop_acc pats (x :: rest)
               (k := List.length (x :: rest))) by lia.
    rewrite (optimize_loop_skipn pats (k := List.length (x :: rest))
               (x :: rest)) by lia.
    reflexivity.
Qed.

(** ** The three patterns at a cursor *)

(** The shape the first two matchers look for: [add rd, rs, $zero]. *)
Definition add_zero_shape (e : element) : bool :=
  match e with
  | Instr i =>
      (opcode i =? "add")%string && (List.length (args i) =? 3)
      && match nth_error (args i) 2 with
         | Some z => (z =? "$zero")%string
         | None => false
         end
  | Lbl _ => false
  end.

Definition has_opcode (op : string) (e : element) : bool :=
  match e with
  | Instr i => (opcode i =? op)%string
  | Lbl _ => false
  end.

(** A [move] built by one of the transformers. *)
Definition new_move (d s : string) (note : string) : element :=
  Instr (mkInstruction "move" [d; s]
           (Some ("Optimized from: " ++ note)%string) None).

Ltac split_args a := destruct a as [|? [|? [|? [|? ?]]]].

Ltac crunch_step :=
  match goal with
  | H : Ok _ = Ok _ |- _ => injection H as H; try subst
  | H : Some _ = Some _ |- _ => injection H as H; try subst
  | H : (_, _) = (_, _) |- _ => injection H as ? ?; try subst
  | H : Ok _ = Raise _ |- _ => discriminate H
  | H : Raise _ = Ok _ |- _ => discriminate H
  | H : Some _ = None |- _ => discriminate H
  | H : None = Some _ |- _ => discriminate H
  | H : true = false |- _ => discriminate H
  | H : false = true |- _ => discriminate H
  | H : ?a <> ?a |- _ => now destruct H
  | H : context [String.eqb ?a ?b] |- _ =>
      destruct (String.eqb_spec a b); try subst
  | |- context [String.eqb ?a ?b] =>
      destruct (String.eqb_spec a b); try subst
  end.

Ltac crunch := cbn in *; repeat (crunch_step; cbn in * ).

Ltac open_elt x :=
  let op := fresh "op" in let a := fresh "a" in
  let c := fresh "c" in let t := fresh "t" in
  destruct x as [[op a c t]|?]; [split_args a|].

Lemma cursor_label l rest :
  try_patterns patterns (Lbl l :: rest) 0 = Ok None.
Proof. destruct rest as [|[?|?] ?]; reflexivity. Qed.

Lemma cursor_add_zero i a0 a1 rest :
  opcode i = "add" -> args i = [a0; a1; "$zero"] ->
  try_patterns patterns (Instr i :: rest) 0 =
  Ok (Some (1, [new_move a0 a1 (format_opt (original_text i))])).
Proof. destruct i as [op a c t]; simpl; intros -> ->. reflexivity. Qed.

(** The matchers and transformers inspect at most two elements. *)
Lemma cursor_window x y l1 l2 :
  try_patterns patterns (x :: y :: l1) 0 =
  try_patterns patterns (x :: y :: l2) 0.
Proof.
  open_elt x; open_elt y; crunch; reflexivity.
Qed.

Lemma cursor_some_inv x rest k t :
  try_patterns patterns (x :: rest) 0 = Ok (Some (k, t)) ->
  (k = 1 /\ add_zero_shape x = true /\ exists d s n, t = [new_move d s n]) \/
  (exists y rest' d s n, rest = y :: rest' /\ k = 2 /\
     ((has_opcode "move" x = true /\ t = [new_move d s n]) \/
      (has_opcode "sw" x = true /\ t = [x; new_move d s n]))).
Proof.
  intros H. open_elt x; (destruct rest as [|y rest']; [|open_elt y]); crunch;
    solve [ left; repeat split; do 3 eexists; reflexivity
          | right; do 5 eexists; repeat split;
            solve [ left; split; reflexivity | right; split; reflexivity ] ].
Qed.

Lemma cursor_none_shape x rest :
  try_patterns patterns (x :: rest) 0 = Ok None -> add_zero_shape x = false.
Proof.
  intros H. open_elt x; (destruct rest as [|y rest']; [|open_elt y]); crunch;
    reflexivity.
Qed.

(** A sequence on which no pattern matches at any cursor. *)
Fixpoint stable (l : list element) : Prop :=
  match l with
  | [] => True
  | x :: rest => try_patterns patterns (x :: rest) 0 = Ok None /\ stable rest
  end.

Lemma optimize_stable l : stable l -> optimize l = Ok l.
Proof.
  unfold optimize.
  induction l as [|x rest IH]; [reflexivity|]. intros [Hx Hrest].
  rewrite optimize_with_cons, Hx, (IH Hrest). reflexivity.
Qed.

(** How the head of the output relates to the head of the input. *)
Definition head_rel (s out : list element) : Prop :=
  match s, out with
  | [], [] => True
  | x :: _, o :: _ => o = x \/ has_opcode "move" o = true
  | _, _ => False
  end.

Lemma cursor_after_move d s n r :
  Forall (fun e => add_zero_shape e = false) r ->
  try_patterns patterns (new_move d s n :: r) 0 = Ok None.
Proof.
  intros H. destruct r as [|y r]; [reflexivity|].
  apply Forall_inv in H. open_elt y; crunch; reflexivity.
Qed.

Lemma cursor_kept_store x d s n r :
  has_opcode "sw" x = true ->
  try_patterns patterns (x :: new_move d s n :: r) 0 = Ok None.
Proof. intros H. open_elt x; crunch; reflexivity. Qed.

Lemma cursor_none_next x rest r :
  try_patterns patterns (x :: rest) 0 = Ok None ->
  head_rel rest r ->
  try_patterns patterns (x :: r) 0 = Ok None.
Proof.
  intros H Hr. destruct rest as [|y rest], r as [|o r]; try easy.
  destruct Hr as [->|Ho]; [now rewrite (cursor_window x y r rest)|].
  open_elt x; open_elt y; open_elt o; crunch; reflexivity.
Qed.

Lemma optimize_output_stable :
  forall n s out, List.length s <= n -> optimize s = Ok out ->
    stable out /\ Forall (fun e => add_zero_shape e = false) out /\
    head_rel s out.
Proof.
  unfold optimize.
  induction n as [|n IH]; intros s out Hn H.
  - destruct s; [|simpl in Hn; lia].
    rewrite optimize_with_nil in H. injection H as <-. simpl. auto.
  - destruct s as [|x rest];
      [rewrite optimize_with_nil in H; injection H as <-; simpl; auto|].
    rewrite optimize_with_cons in H.
    destruct (try_patterns patterns (x :: rest) 0)
      as [ [ [k t] | ] | err ] eqn:Hc; [| |discriminate].
    + destruct (optimize_with patterns (skipn k (x :: rest))) as [r|]
        eqn:Hr; [|discriminate].
      simpl in H. injection H as <-.
      apply IH in Hr.
      2:{ pose proof (try_patterns_positive _ _ _ Hc).
          rewrite length_skipn.
          change (List.length (x :: rest)) with (S (List.length rest)) in *.
          lia. }
      destruct Hr as (Hst & Hsh & _).
      apply cursor_some_inv in Hc.
      destruct Hc as [(-> & _ & d & s & m & ->)
                     |(y & rest' & d & s & m & -> & -> & [[Hx ->]|[Hx ->]])];
        cbn [app stable head_rel]; repeat split;
        auto using cursor_after_move, cursor_kept_store.
      constructor; [|constructor; auto].
      destruct x as [i|]; simpl in *; [|discriminate].
      destruct (String.eqb_spec (opcode i) "sw") as [E|]; [|discriminate].
      rewrite E. reflexivity.
    + destruct (optimize_with patterns rest) as [r|] eqn:Hr; [|discriminate].
      simpl in H. injection H as <-.
      apply IH in Hr; [|simpl in Hn; lia].
      destruct Hr as (Hst & Hsh & Hh).
      cbn [stable head_rel]. repeat split; auto.
      * eapply cursor_none_next; eauto.
      * constructor; eauto using cursor_none_shape.
Qed.

(** Whenever the pass returns, running it again changes nothing. *)
Lemma optimize_twice s out :
  optimize s = Ok out -> optimize out = Ok out.
Proof.
  intros H. apply optimize_stable.
  now apply (optimize_output_stable (n := List.length s) s).
Qed.

(** ** Cutting the input where no window can straddle *)

(** When the element [x] cannot complete a window opened by the element
    before it, the pass treats the two sides of the cut independently. *)
Lemma optimize_app_cut :
  forall n pre x rest, List.length pre <= n ->
    (forall pre' e l, pre = pre' ++ [e] ->
       try_patterns patterns (e :: x :: l) 0 = try_patterns patterns [e] 0) ->
    optimize (pre ++ x :: rest) =
    p <- optimize pre ;; q <- optimize (x :: rest) ;; Ok (p ++ q).
Proof.
  unfold optimize.
  induction n as [|n IH]; intros pre x rest Hn Hcut.
  - destruct pre; [|simpl in Hn; lia]. rewrite optimize_with_nil. simpl.
    now destruct (optimize_with patterns (x :: rest)).
  - destruct pre as [|e pre1].
    { rewrite optimize_with_nil. simpl.
      now destruct (optimize_with patterns (x :: rest)). }
    assert (Hc : try_patterns patterns ((e :: pre1) ++ x :: rest) 0 =
                 try_patterns patterns (e :: pre1) 0).
    { destruct pre1 as [|y pre2]; [apply (Hcut [] e); reflexivity|].
      apply cursor_window. }
    assert (Htail : forall pre2 m, pre1 = firstn m pre1 ++ pre2 ->
              forall pre' e' l, pre2 = pre' ++ [e'] ->
                try_patterns patterns (e' :: x :: l) 0 =
                try_patterns patterns [e'] 0).
    { intros pre2 m E pre' e' l ->. apply (Hcut (e :: firstn m pre1 ++ pre')).
      simpl. rewrite <- app_assoc. now rewrite <- E. }
    simpl app in *.
    rewrite (optimize_with_cons patterns e (pre1 ++ x :: rest)), Hc.
    rewrite (optimize_with_cons patterns e pre1).
    destruct (try_patterns patterns (e :: pre1) 0)
      as [ [ [k t] | ] | err ] eqn:Hk; [| |reflexivity].
    + apply cursor_some_inv in Hk.
      destruct Hk as [(-> & _)|(y & pre2 & d & s & m & -> & -> & _)];
        simpl skipn.
      * rewrite (IH pre1 x rest) by (simpl in Hn; lia || exact (Htail pre1 0 eq_refl)).
        destruct (optimize_with patterns pre1); simpl; [|reflexivity].
        destruct (optimize_with patterns (x :: rest)); simpl; [|reflexivity].
        now rewrite app_assoc.
      * rewrite (IH pre2 x rest)
          by (simpl in Hn; lia || exact (Htail pre2 1 eq_refl)).
        destruct (optimize_with patterns pre2); simpl; [|reflexivity].
        destruct (optimize_with patterns (x :: rest)); simpl; [|reflexivity].
        now rewrite app_assoc.
    + rewrite (IH pre1 x rest)
        by (simpl in Hn; lia || exact (Htail pre1 0 eq_refl)).
      destruct (optimize_with patterns pre1); simpl; [|reflexivity].
      destruct (optimize_with patterns (x :: rest)); simpl; reflexivity.
Qed.

(** An element that is neither an [add ..., $zero] nor a [lw] never
    completes a window. *)
Lemma cursor_cut e x l :
  add_zero_shape x = false -> has_opcode "lw" x = false ->
  try_patterns patterns (e :: x :: l) 0 = try_patterns patterns [e] 0.
Proof.
  intros H1 H2. open_elt e; open_elt x; crunch; reflexivity.
Qed.


(** What a matched window and its replacement look like. *)
Lemma cursor_some_shape s k t :
  try_patterns patterns s 0 = Ok (Some (k, t)) ->
  (exists x rest d a n, s = x :: rest /\ k = 1 /\
     has_opcode "add" x = true /\ t = [new_move d a n]) \/
  (exists x y rest d a n, s = x :: y :: rest /\ k = 2 /\
     has_opcode "move" x = true /\ has_opcode "add" y = true /\
     t = [new_move d a n]) \/
  (exists x y rest d a n, s = x :: y :: rest /\ k = 2 /\
     has_opcode "sw" x = true /\ has_opcode "lw" y = true /\
     t = [x; new_move d a n]).
Proof.
  intros H. destruct s as [|x rest]; [discriminate|].
  open_elt x; (destruct rest as [|y rest']; [|open_elt y]); crunch;
    solve [ left; do 5 eexists; repeat split; reflexivity
          | right; left; do 6 eexists; repeat split; reflexivity
          | right; right; do 6 eexists; repeat split; reflexivity ].
Qed.

Definition no_match_at (suffix : list element) : Prop :=
  _match_add_zero suffix = Ok 0 /\
  _match_redundant_move suffix = Ok 0 /\
  _match_redundant_load_store suffix = Ok 0.

Lemma no_match_cursor suffix :
  no_match_at suffix -> try_patterns patterns suffix 0 = Ok None.
Proof.
  intros (H1 & H2 & H3). unfold patterns, try_patterns.
  change (skipn 0 suffix) with suffix. now rewrite H1, H2, H3.
Qed.

(** The labels of a sequence, in order. *)
Fixpoint labels_of (l : list element) : list Label :=
  match l with
  | [] => []
  | Lbl x :: rest => x :: labels_of rest
  | Instr _ :: rest => labels_of rest
  end.

(** The pass as a sequence of pieces: an element copied as it is, or a
    matched window with its replacement. *)
Inductive piece : Type :=
| Kept (x : element)
| Rewritten (window replacement : list element).

Definition piece_in (p : piece) : list element :=
  match p with
  | Kept x => [x]
  | Rewritten w _ => w
  end.

Definition piece_out (p : piece) : list element :=
  match p with
  | Kept x => [x]
  | Rewritten _ r => r
  end.

Inductive scan : list element -> list piece -> Prop :=
| scan_nil : scan [] []
| scan_keep x rest ps :
    try_patterns patterns (x :: rest) 0 = Ok None ->
    scan rest ps -> scan (x :: rest) (Kept x :: ps)
| scan_rewrite s k t ps :
    try_patterns patterns s 0 = Ok (Some (k, t)) ->
    scan (skipn k s) ps -> scan s (Rewritten (firstn k s) t :: ps).

Lemma scan_source s ps : scan s ps -> flat_map piece_in ps = s.
Proof.
  induction 1 as [|x rest ps _ _ IH|s k t ps _ _ IH]; simpl.
  - reflexivity.
  - now rewrite IH.
  - rewrite IH. apply firstn_skipn.
Qed.

Lemma optimize_scan :
  forall n s out, List.length s <= n -> optimize s = Ok out ->
    exists ps, scan s ps /\ flat_map piece_out ps = out.
Proof.
  unfold optimize.
  induction n as [|n IH]; intros s out Hn H.
  - destruct s; [|simpl in Hn; lia].
    rewrite optimize_with_nil in H. injection H as <-.
    exists []. split; [constructor|reflexivity].
  - destruct s as [|x rest].
    { rewrite optimize_with_nil in H. injection H as <-.
      exists []. split; [constructor|reflexivity]. }
    rewrite optimize_with_cons in H.
    destruct (try_patterns patterns (x :: rest) 0)
      as [ [ [k t] | ] | err ] eqn:Hc; [| |discriminate].
    + destruct (optimize_with patterns (skipn k (x :: rest))) as [r|]
        eqn:Hr; [|discriminate].
      simpl in H. injection H as <-.
      apply IH in Hr.
      2:{ pose proof (try_patterns_positive _ _ _ Hc).
          rewrite length_skipn.
          change (List.length (x :: rest)) with (S (List.length rest)) in *.
          lia. }
      destruct Hr as (ps & Hps & <-).
      exists (Rewritten (firstn k (x :: rest)) t :: ps).
      split; [now apply scan_rewrite|reflexivity].
    + destruct (optimize_with patterns rest) as [r|] eqn:Hr; [|discriminate].
      simpl in H. injection H as <-.
      apply IH in Hr; [|simpl in Hn; lia].
      destruct Hr as (ps & Hps & <-).
      exists (Kept x :: ps). split; [now apply scan_keep|reflexivity].
Qed.

Lemma has_opcode_instr op e :
  has_opcode op e = true -> exists i, e = Instr i /\ opcode i = op.
Proof.
  destruct e as [i|]; simpl; [|discriminate].
  destruct (String.eqb_spec (opcode i) op); [eauto|discriminate].
Qed.

(** ** Hand-built instructions, as in the tests *)

Definition ins (op : string) (a : list string) : Instruction :=
  mkInstruction op a None None.

(** ** The three rewrites *)

(** C1 (defect in the code).  The matchers are meant to return a length on
    every input, but two of them read operand positions without checking the
    operand count: [_match_redundant_load_store] reads [store.args[1]] and
    [load.args[1]], and [_match_redundant_move] reads [first.args[0]].  On a
    bare [sw] followed by a bare [lw], on a one-operand [sw] or [lw], and on
    a [move] without operands followed by [add ..., $zero], the matcher
    raises [IndexError], and so does [optimize]; the two-line text
    [sw], [lw] parses to such an input. *)
Theorem matchers_raise_on_short_operands :
  _match_redundant_load_store [Instr (ins "sw" []); Instr (ins "lw" [])]
    = Raise IndexError /\
  _match_redundant_load_store
    [Instr (ins "sw" ["$t1"]); Instr (ins "lw" ["$t2"; "0($sp)"])]
    = Raise IndexError /\
  _match_redundant_load_store
    [Instr (ins "sw" ["$t1"; "0($sp)"]); Instr (ins "lw" ["$t2"])]
    = Raise IndexError /\
  _match_redundant_move
    [Instr (ins "move" []); Instr (ins "add" ["$t2"; "$t1"; "$zero"])]
    = Raise IndexError /\
  optimize [Instr (ins "sw" []); Instr (ins "lw" [])] = Raise IndexError /\
  optimize [Instr (ins "move" []); Instr (ins "add" ["$t2"; "$t1"; "$zero"])]
    = Raise IndexError /\
  parse_text ("sw" ++ LF ++ "lw")%string
    = [Instr (mkInstruction "sw" [] None (Some "sw"));
       Instr (mkInstruction "lw" [] None (Some "lw"))] /\
  optimize (parse_text ("sw" ++ LF ++ "lw")%string) = Raise IndexError.
Proof. repeat split; reflexivity. Qed.

(** C2 (as stated, refuted).  There is no input on which a second pass
    differs from the first: whenever [optimize s] returns [out], neither
    does [optimize out] raise nor does it return anything but [out]. *)
Theorem no_second_pass_reduction :
  ~ exists s out, optimize s = Ok out /\ optimize out <> Ok out.
Proof.
  intros (s & out & H & Hne). apply Hne. exact (@optimize_twice s out H).
Qed.

(** C2 (amended).  The pass is a single left-to-right scan that never
    re-reads its output, and for the three registered patterns its output
    contains no further match: whenever [optimize s] returns,
    [optimize (optimize s)] returns the same sequence. *)
Theorem optimize_idempotent s out :
  optimize s = Ok out -> optimize out = Ok out.
Proof. apply optimize_twice. Qed.

Lemma optimize_idempotent_witness :
  optimize [Instr (ins "move" ["$t1"; "$t0"]);
            Instr (ins "add" ["$t2"; "$t1"; "$zero"]);
            Instr (ins "add" ["$t3"; "$t2"; "$zero"])]
  = Ok [new_move "$t2" "$t0" "None and None"; new_move "$t3" "$t2" "None"] /\
  optimize [new_move "$t2" "$t0" "None and None"; new_move "$t3" "$t2" "None"]
  = Ok [new_move "$t2" "$t0" "None and None"; new_move "$t3" "$t2" "None"].
Proof.
  split; [reflexivity|].
  apply (@optimize_idempotent
           [Instr (ins "move" ["$t1"; "$t0"]);
            Instr (ins "add" ["$t2"; "$t1"; "$zero"]);
            Instr (ins "add" ["$t3"; "$t2"; "$zero"])]).
  reflexivity.
Defined.

(** C3.  Wherever an [sw] is immediately followed by an [lw] with the same
    second operand token, the store is kept verbatim and the load becomes
    [move <load.arg0>, <store.arg0>]; the elements before and after the
    pair are optimized on their own.  In particular
    [sw $t1, 0($sp); lw $t2, 0($sp)] becomes
    [sw $t1, 0($sp); move $t2, $t1]. *)
Theorem store_then_load_rewrite :
  (forall pre store load s0 l0 m ts tl post,
      opcode store = "sw" -> opcode load = "lw" ->
      args store = s0 :: m :: ts -> args load = l0 :: m :: tl ->
      optimize (pre ++ Instr store :: Instr load :: post) =
      p <- optimize pre ;; q <- optimize post ;;
      Ok (p ++ Instr store
            :: new_move l0 s0 (format_opt (original_text load)) :: q)) /\
  optimize [Instr (ins "sw" ["$t1"; "0($sp)"]);
            Instr (ins "lw" ["$t2"; "0($sp)"])]
  = Ok [Instr (ins "sw" ["$t1"; "0($sp)"]);
        Instr (mkInstruction "move" ["$t2"; "$t1"]
                 (Some "Optimized from: None") None)].
Proof.
  split; [|reflexivity].
  intros pre store load s0 l0 m ts tl post Hs Hl Has Hal.
  rewrite (optimize_app_cut (n := List.length pre)); [|lia|].
  2:{ intros pre' e l _. apply cursor_cut; simpl; rewrite Hs; reflexivity. }
  destruct (optimize pre) as [p|]; simpl; [|reflexivity].
  unfold optimize. rewrite optimize_with_cons.
  replace (try_patterns patterns (Instr store :: Instr load :: post) 0)
    with (Ok (Some (2, [Instr store;
                        new_move l0 s0 (format_opt (original_text load))]))).
  2:{ destruct store, load; simpl in *; subst. cbn.
      rewrite String.eqb_refl. reflexivity. }
  simpl skipn. destruct (optimize_with patterns post); reflexivity.
Qed.

Lemma store_then_load_rewrite_witness :
  optimize ([Instr (ins "sub" ["$t0"; "$t0"; "$t3"])]
              ++ Instr (ins "sw" ["$t1"; "4($sp)"])
              :: Instr (ins "lw" ["$t2"; "4($sp)"])
              :: [Instr (ins "jr" ["$ra"])]) =
  p <- optimize [Instr (ins "sub" ["$t0"; "$t0"; "$t3"])] ;;
  q <- optimize [Instr (ins "jr" ["$ra"])] ;;
  Ok (p ++ Instr (ins "sw" ["$t1"; "4($sp)"])
        :: new_move "$t2" "$t1"
             (format_opt (original_text (ins "lw" ["$t2"; "4($sp)"])))
        :: q).
Proof.
  apply (proj1 store_then_load_rewrite) with (m := "4($sp)") (ts := [])
    (tl := []); reflexivity.
Defined.

(** C4 (defect in the code).  A [move] with a single operand followed by
    an [add] with exactly three operands, the third [$zero] and the second
    the move's operand, meets every condition of the pattern:
    [_match_redundant_move] returns 2.  The transformer then reads
    [instructions[0].args[1]], which does not exist, and raises
    [IndexError]; so does [optimize], instead of producing a single move.
    The two-line text [move $t1], [add $t2, $t1, $zero] parses to such an
    input.  This is the missing operand-count check of C1, seen from the
    transformer. *)
Theorem redundant_move_raises_without_source :
  _match_redundant_move
    [Instr (ins "move" ["$t1"]); Instr (ins "add" ["$t2"; "$t1"; "$zero"])]
    = Ok 2 /\
  _transform_redundant_move
    [Instr (ins "move" ["$t1"]); Instr (ins "add" ["$t2"; "$t1"; "$zero"])]
    = Raise IndexError /\
  optimize
    [Instr (ins "move" ["$t1"]); Instr (ins "add" ["$t2"; "$t1"; "$zero"])]
    = Raise IndexError /\
  parse_text ("move $t1" ++ LF ++ "add $t2, $t1, $zero")%string
    = [Instr (mkInstruction "move" ["$t1"] None (Some "move $t1"));
       Instr (mkInstruction "add" ["$t2"; "$t1"; "$zero"] None
                (Some "add $t2, $t1, $zero"))] /\
  optimize (parse_text ("move $t1" ++ LF ++ "add $t2, $t1, $zero")%string)
    = Raise IndexError.
Proof. repeat split; reflexivity. Qed.

(** The redundant-move rewrite where the [move] has its source operand:
    wherever a [move] with a destination and a source is immediately
    followed by an [add] with exactly three operands, the third being
    [$zero] and the second the move's destination, the pair becomes the
    single [move <add.arg0>, <move.arg1>]; the elements before and after
    are optimized on their own.  In particular
    [move $t1, $t0; add $t2, $t1, $zero] becomes exactly [move $t2, $t0]. *)
Theorem redundant_move_rewrite :
  (forall pre mv ad d s tm a0 post,
      opcode mv = "move" -> args mv = d :: s :: tm ->
      opcode ad = "add" -> args ad = [a0; d; "$zero"] ->
      optimize (pre ++ Instr mv :: Instr ad :: post) =
      p <- optimize pre ;; q <- optimize post ;;
      Ok (p ++ new_move a0 s (format_opt (original_text mv) ++ " and "
                                ++ format_opt (original_text ad))%string
            :: q)) /\
  optimize [Instr (ins "move" ["$t1"; "$t0"]);
            Instr (ins "add" ["$t2"; "$t1"; "$zero"])]
  = Ok [Instr (mkInstruction "move" ["$t2"; "$t0"]
                 (Some "Optimized from: None and None") None)].
Proof.
  split; [|reflexivity].
  intros pre mv ad d s tm a0 post Hm Ham Ha Haa.
  rewrite (optimize_app_cut (n := List.length pre)); [|lia|].
  2:{ intros pre' e l _. apply cursor_cut; simpl; rewrite Hm; reflexivity. }
  destruct (optimize pre) as [p|]; simpl; [|reflexivity].
  unfold optimize. rewrite optimize_with_cons.
  replace (try_patterns patterns (Instr mv :: Instr ad :: post) 0)
    with (Ok (Some (2, [new_move a0 s
                          (format_opt (original_text mv) ++ " and "
                             ++ format_opt (original_text ad))%string]))).
  2:{ destruct mv, ad; simpl in *; subst. cbn.
      rewrite String.eqb_refl. reflexivity. }
  simpl skipn. destruct (optimize_with patterns post); reflexivity.
Qed.

Lemma redundant_move_rewrite_witness :
  optimize ([Instr (ins "sub" ["$t0"; "$t0"; "$t3"])]
              ++ Instr (ins "move" ["$t1"; "$t0"])
              :: Instr (ins "add" ["$t2"; "$t1"; "$zero"])
              :: [Instr (ins "jr" ["$ra"])]) =
  p <- optimize [Instr (ins "sub" ["$t0"; "$t0"; "$t3"])] ;;
  q <- optimize [Instr (ins "jr" ["$ra"])] ;;
  Ok (p ++ new_move "$t2" "$t0"
             (format_opt (original_text (ins "move" ["$t1"; "$t0"]))
                ++ " and "
                ++ format_opt
                     (original_text (ins "add" ["$t2"; "$t1"; "$zero"])))%string
        :: q).
Proof.
  apply (proj1 redundant_move_rewrite) with (d := "$t1") (tm := []);
    reflexivity.
Defined.



(** ** Labels and untouched elements *)

Lemma labels_of_app a b : labels_of (a ++ b) = labels_of a ++ labels_of b.
Proof.
  induction a as [|[?|?] a IH]; simpl; [reflexivity|exact IH|now rewrite IH].
Qed.

Lemma piece_labels s k t :
  try_patterns patterns s 0 = Ok (Some (k, t)) ->
  labels_of (firstn k s) = [] /\ labels_of t = [].
Proof.
  intros H. apply cursor_some_shape in H.
  destruct H as [(x & rest & d & a & n & -> & -> & Hx & ->)
                |[(x & y & rest & d & a & n & -> & -> & Hx & Hy & ->)
                 |(x & y & rest & d & a & n & -> & -> & Hx & Hy & ->)]];
    apply has_opcode_instr in Hx as (? & -> & _);
    try apply has_opcode_instr in Hy as (? & -> & _); split; reflexivity.
Qed.

Lemma scan_labels s ps :
  scan s ps -> labels_of (flat_map piece_out ps) = labels_of s.
Proof.
  induction 1 as [|x rest ps _ _ IH|s k t ps Hc _ IH]; simpl.
  - reflexivity.
  - destruct x; simpl; now rewrite IH.
  - destruct (@piece_labels s k t Hc) as [Hw Ht].
    rewrite labels_of_app, Ht, IH.
    rewrite <- (firstn_skipn k s) at 2. now rewrite labels_of_app, Hw.
Qed.

(** C6.  Every matcher returns 0 when the element at the cursor is a
    [Label], and the two-element matchers also when the next element is one.
    So no window spans a label: the two sides of a label are optimized
    independently and the label is copied; the labels of the output are the
    labels of the input, unchanged and in the same order; and a label
    between a [move] and a matching [add ..., $zero] keeps the pair from
    collapsing. *)
Theorem labels_are_barriers :
  (forall l rest,
      _match_add_zero (Lbl l :: rest) = Ok 0 /\
      _match_redundant_move (Lbl l :: rest) = Ok 0 /\
      _match_redundant_load_store (Lbl l :: rest) = Ok 0) /\
  (forall x l rest,
      _match_redundant_move (x :: Lbl l :: rest) = Ok 0 /\
      _match_redundant_load_store (x :: Lbl l :: rest) = Ok 0) /\
  (forall pre l post,
      optimize (pre ++ Lbl l :: post) =
      p <- optimize pre ;; q <- optimize post ;; Ok (p ++ Lbl l :: q)) /\
  (forall s out, optimize s = Ok out -> labels_of out = labels_of s) /\
  optimize [Instr (ins "move" ["$t1"; "$t0"]); Lbl (mkLabel "L" None);
            Instr (ins "add" ["$t2"; "$t1"; "$zero"])]
  = Ok [Instr (ins "move" ["$t1"; "$t0"]); Lbl (mkLabel "L" None);
        Instr (mkInstruction "move" ["$t2"; "$t1"]
                 (Some "Optimized from: None") None)].
Proof.
  split; [|split; [|split; [|split; [|reflexivity]]]].
  - intros l rest. destruct rest as [|[?|?] ?]; repeat split; reflexivity.
  - intros x l rest. destruct x; split; reflexivity.
  - intros pre l post.
    rewrite (optimize_app_cut (n := List.length pre)); [|lia|].
    2:{ intros pre' e r _. apply cursor_cut; reflexivity. }
    destruct (optimize pre) as [p|]; simpl; [|reflexivity].
    unfold optimize. rewrite optimize_with_cons, cursor_label.
    destruct (optimize_with patterns post); reflexivity.
  - intros s out H.
    destruct (optimize_scan (n := List.length s) s (le_n _) H)
      as (ps & Hps & <-).
    now apply scan_labels.
Qed.

Lemma labels_are_barriers_witness :
  labels_of [Lbl (mkLabel "L" None); new_move "$t2" "$t1" "None"] =
  labels_of [Lbl (mkLabel "L" None);
             Instr (ins "add" ["$t2"; "$t1"; "$zero"])].
Proof.
  apply (proj1 (proj2 (proj2 (proj2 labels_are_barriers)))).
  reflexivity.
Defined.

Lemma piece_frame keep s k t :
  (forall e, keep e = true ->
     has_opcode "add" e = false /\ has_opcode "move" e = false /\
     has_opcode "lw" e = false) ->
  try_patterns patterns s 0 = Ok (Some (k, t)) ->
  filter keep (firstn k s) = filter keep t.
Proof.
  intros Hk H.
  assert (Hno : forall e, has_opcode "add" e = true \/
              has_opcode "move" e = true \/ has_opcode "lw" e = true ->
              keep e = false).
  { intros e He. destruct (keep e) eqn:E; [|reflexivity].
    destruct (Hk e E) as (H1 & H2 & H3).
    destruct He as [He|[He|He]]; congruence. }
  apply cursor_some_shape in H.
  destruct H as [(x & rest & d & a & n & -> & -> & Hx & ->)
                |[(x & y & rest & d & a & n & -> & -> & Hx & Hy & ->)
                 |(x & y & rest & d & a & n & -> & -> & Hx & Hy & ->)]];
    simpl.
  - rewrite (Hno x), (Hno (new_move d a n)); auto.
  - rewrite (Hno x), (Hno y), (Hno (new_move d a n)); auto.
  - rewrite (Hno y), (Hno (new_move d a n)); auto.
Qed.

Lemma scan_frame keep s ps :
  (forall e, keep e = true ->
     has_opcode "add" e = false /\ has_opcode "move" e = false /\
     has_opcode "lw" e = false) ->
  scan s ps -> filter keep (flat_map piece_out ps) = filter keep s.
Proof.
  intros Hk.
  induction 1 as [|x rest ps _ _ IH|s k t ps Hc _ IH]; simpl.
  - reflexivity.
  - now rewrite IH.
  - rewrite filter_app, IH, <- (@piece_frame keep s k t Hk Hc), <- filter_app.
    now rewrite firstn_skipn.
Qed.

(** The instructions whose opcode is none of [add], [move], [sw], [lw]. *)
Definition other_opcode (e : element) : bool :=
  isinstance_Instruction e
  && negb (has_opcode "add" e || has_opcode "move" e
           || has_opcode "sw" e || has_opcode "lw" e).

(** C7.  An element at whose cursor position no matcher matches is appended
    to the output as it is (opcode, args, comment and original_text) and the
    cursor moves on by one.  The whole pass cuts the input into pieces, each
    either such an element, copied, or a matched window, replaced by its
    transformer's output; the pieces appear in the output in input order.
    In particular the instructions whose opcode is none of add, move, sw, lw
    (and more generally any elements that are not add, move or lw
    instructions) are the same, in the same order, before and after. *)
Theorem unmatched_elements_preserved :
  (forall instructions i optimized x,
      nth_error instructions i = Some x ->
      no_match_at (skipn i instructions) ->
      optimize_loop patterns instructions i optimized =
      optimize_loop patterns instructions (i + 1) (optimized ++ [x])) /\
  (forall s out, optimize s = Ok out ->
      exists ps, scan s ps /\ flat_map piece_in ps = s /\
                 flat_map piece_out ps = out) /\
  (forall s out, optimize s = Ok out ->
      filter other_opcode out = filter other_opcode s) /\
  (forall keep s out,
      (forall e, keep e = true ->
         has_opcode "add" e = false /\ has_opcode "move" e = false /\
         has_opcode "lw" e = false) ->
      optimize s = Ok out -> filter keep out = filter keep s).
Proof.
  assert (Hgen : forall keep s out,
      (forall e, keep e = true ->
         has_opcode "add" e = false /\ has_opcode "move" e = false /\
         has_opcode "lw" e = false) ->
      optimize s = Ok out -> filter keep out = filter keep s).
  { intros keep s out Hk H.
    destruct (optimize_scan (n := List.length s) s (le_n _) H)
      as (ps & Hps & <-).
    now apply scan_frame. }
  split; [|split; [|split; [|exact Hgen]]].
  - intros instructions i optimized x Hi Hno.
    rewrite optimize_loop_step.
    assert (Hlt : i < List.length instructions)
      by (apply nth_error_Some; congruence).
    rewrite (proj2 (Nat.ltb_lt _ _) Hlt), try_patterns_skipn.
    now rewrite (@no_match_cursor _ Hno), Hi.
  - intros s out H.
    destruct (optimize_scan (n := List.length s) s (le_n _) H)
      as (ps & Hps & Hout).
    exists ps. repeat split; auto using scan_source.
  - intros s out. apply Hgen. intros e He. unfold other_opcode in He.
    destruct (has_opcode "add" e), (has_opcode "move" e),
      (has_opcode "lw" e), (has_opcode "sw" e), (isinstance_Instruction e);
      simpl in He; try discriminate; auto.
Qed.

Lemma unmatched_elements_preserved_witness :
  filter other_opcode
    [Instr (ins "sub" ["$t0"; "$t1"; "$t2"]);
     new_move "$t2" "$t1" "None"; Instr (ins "jr" ["$ra"])] =
  filter other_opcode
    [Instr (ins "sub" ["$t0"; "$t1"; "$t2"]);
     Instr (ins "add" ["$t2"; "$t1"; "$zero"]); Instr (ins "jr" ["$ra"])].
Proof.
  apply (proj1 (proj2 (proj2 unmatched_elements_preserved))).
  reflexivity.
Defined.

(** ** Provenance of rewritten instructions *)




(** ** The parser: strings *)

Fixpoint string_forall (p : ascii -> bool) (s : string) : bool :=
  match s with
  | EmptyString => true
  | String c r => p c && string_forall p r
  end.

(** An identifier, as the label pattern reads one. *)
Definition is_identifier (s : string) : bool :=
  match s with
  | String c r => is_ident_start c && string_forall is_ident_char r
  | EmptyString => false
  end.

Ltac by_char c :=
  destruct c as [[] [] [] [] [] [] [] []]; vm_compute; congruence.

Lemma ident_start_not_space c : is_ident_start c = true -> isspace c = false.
Proof. by_char c. Qed.

Lemma ident_start_not_hash c :
  is_ident_start c = true -> (code c =? 35) = false.
Proof. by_char c. Qed.

Lemma alpha_not_space c : is_alpha c = true -> isspace c = false.
Proof. by_char c. Qed.

Lemma alpha_lower c :
  is_alpha c = true -> in_range 97 122 (lower_char c) = true.
Proof. by_char c. Qed.

Lemma hash_not_space c : (code c =? 35) = true -> isspace c = false.
Proof. by_char c. Qed.

Lemma colon_not_ident c : (code c =? 58) = true -> is_ident_char c = false.
Proof. by_char c. Qed.

Lemma rstrip_cons c r :
  isspace c = false -> rstrip (String c r) = String c (rstrip r).
Proof. simpl. intros ->. now destruct (rstrip r). Qed.

Lemma rstrip_idem s : rstrip (rstrip s) = rstrip s.
Proof.
  induction s as [|c r IH]; [reflexivity|]. simpl.
  destruct (rstrip r) as [|c' r'] eqn:E.
  - destruct (isspace c) eqn:Ec; simpl; [reflexivity|now rewrite Ec].
  - simpl in *. now rewrite IH.
Qed.

Lemma lstrip_head s :
  lstrip s = EmptyString \/
  exists c r, lstrip s = String c r /\ isspace c = false.
Proof.
  induction s as [|c r IH]; [now left|]. unfold lstrip in *. simpl.
  destruct (isspace c) eqn:E; [exact IH|right; eauto].
Qed.

Lemma lstrip_idem s : lstrip (lstrip s) = lstrip s.
Proof.
  unfold lstrip. induction s as [|c r IH]; [reflexivity|]. simpl.
  destruct (isspace c) eqn:E; [exact IH|]. simpl. now rewrite E.
Qed.

Lemma lstrip_fixed c r : isspace c = false -> lstrip (String c r) = String c r.
Proof. unfold lstrip. simpl. now intros ->. Qed.

Lemma strip_idem s : strip (strip s) = strip s.
Proof.
  unfold strip. destruct (lstrip_head s) as [->|(c & r & -> & Hc)];
    [reflexivity|].
  rewrite (@rstrip_cons c r Hc), (@lstrip_fixed c _ Hc), <- (@rstrip_cons c r Hc).
  apply rstrip_idem.
Qed.

Lemma strip_head c r :
  isspace c = false -> strip (String c r) = String c (rstrip r).
Proof. intros H. unfold strip. now rewrite (@lstrip_fixed c r H), rstrip_cons. Qed.

Lemma drop_while_keeps q p s :
  string_forall q s = true -> string_forall q (drop_while p s) = true.
Proof.
  induction s as [|c r IH]; [reflexivity|]. simpl. intros H.
  apply andb_prop in H as [Hc Hr].
  destruct (p c); [auto|]. simpl. now rewrite Hc, Hr.
Qed.

Lemma rstrip_keeps q s :
  string_forall q s = true -> string_forall q (rstrip s) = true.
Proof.
  induction s as [|c r IH]; [reflexivity|]. simpl. intros H.
  apply andb_prop in H as [Hc Hr]. specialize (IH Hr).
  destruct (rstrip r) as [|c' r'].
  - destruct (isspace c); simpl; [reflexivity|now rewrite Hc].
  - simpl in *. now rewrite Hc, IH.
Qed.

Lemma strip_keeps q s :
  string_forall q s = true -> string_forall q (strip s) = true.
Proof. intros H. apply rstrip_keeps, drop_while_keeps, H. Qed.

Lemma take_while_all p s : string_forall p (take_while p s) = true.
Proof.
  induction s as [|c r IH]; [reflexivity|]. simpl.
  destruct (p c) eqn:E; [|reflexivity]. simpl. now rewrite E, IH.
Qed.

(** The pieces of [split(',')] contain no comma. *)
Lemma split_comma_pieces s :
  Forall (fun piece =>
            string_forall (fun c => negb (code c =? 44)) piece = true)
         (split_comma s).
Proof.
  induction s as [|c r IH]; simpl; [repeat constructor|].
  destruct (code c =? 44) eqn:E; [constructor; [reflexivity|exact IH]|].
  destruct (split_comma r) as [|piece pieces]; [repeat constructor; simpl; now rewrite E|].
  inversion IH as [|? ? Hp Hps]; subst.
  constructor; [simpl; now rewrite E, Hp|exact Hps].
Qed.

(** The lines of [splitlines] contain no line boundary, so no line feed. *)
Lemma splitlines_from_lines s :
  forall cur,
    string_forall (fun c => negb (is_linebreak c)) cur = true ->
    Forall (fun line =>
              string_forall (fun c => negb (is_linebreak c)) line = true)
           (splitlines_from cur s).
Proof.
  assert (Happ : forall cur c,
    string_forall (fun c => negb (is_linebreak c)) cur = true ->
    is_linebreak c = false ->
    string_forall (fun c => negb (is_linebreak c))
      (cur ++ String c EmptyString)%string = true).
  { induction cur as [|c' r IH]; simpl; intros c H Hc; [now rewrite Hc|].
    apply andb_prop in H as [H1 H2]. now rewrite H1, IH. }
  assert (Hn : forall n s, String.length s <= n -> forall cur,
    string_forall (fun c => negb (is_linebreak c)) cur = true ->
    Forall (fun line =>
              string_forall (fun c => negb (is_linebreak c)) line = true)
           (splitlines_from cur s)).
  { induction n as [|n IH]; intros [|c r] Hlen cur Hcur;
      try (simpl in Hlen; lia);
      try (simpl; destruct cur; [constructor|repeat constructor; exact Hcur]).
    simpl in Hlen. simpl.
    destruct (code c =? 13).
    - destruct r as [|c' r']; [constructor; [exact Hcur|constructor]|].
      destruct (code c' =? 10); (constructor; [exact Hcur|]);
        apply IH; simpl in *; auto; lia.
    - destruct (is_linebreak c) eqn:El.
      + constructor; [exact Hcur|]. apply IH; auto; lia.
      + apply IH; [lia|]. now apply Happ. }
  intros cur. now apply (Hn (String.length s)).
Qed.

Lemma splitlines_lines text :
  Forall (fun line =>
            string_forall (fun c => negb (is_linebreak c)) line = true)
         (splitlines text).
Proof. now apply splitlines_from_lines. Qed.

(** ** The parser: one line at a time *)

(** Every address in the list refers to an object of the store. *)
Definition allocated (self : MIPSParser) : Prop :=
  Forall (fun r => match r with
                   | RInstr _ => True
                   | RLabel addr => addr < List.length (store self)
                   end) (instructions self).

Lemma set_instruction_length st addr i :
  List.length (set_instruction st addr i) = List.length st.
Proof.
  revert addr. induction st as [|l st IH]; intros [|a]; simpl; auto.
Qed.

Lemma set_instruction_other st addr i a d :
  a <> addr -> nth a (set_instruction st addr i) d = nth a st d.
Proof.
  revert addr a. induction st as [|l st IH]; intros [|b] [|a] H; simpl;
    try reflexivity; try congruence.
  apply IH. congruence.
Qed.

Lemma set_instruction_last st l i d :
  nth (List.length st) (set_instruction (st ++ [l]) (List.length st) i) d =
  mkLabel (name l) (Some i).
Proof. induction st as [|l' st IH]; simpl; auto. Qed.

Lemma deref_old st st' refs :
  List.length st <= List.length st' ->
  (forall a d, a < List.length st -> nth a st' d = nth a st d) ->
  Forall (fun r => match r with
                   | RInstr _ => True
                   | RLabel addr => addr < List.length st
                   end) refs ->
  map (deref st') refs = map (deref st) refs /\
  Forall (fun r => match r with
                   | RInstr _ => True
                   | RLabel addr => addr < List.length st'
                   end) refs.
Proof.
  intros Hlen Hsame. induction 1 as [|r refs Hr _ [IH1 IH2]]; simpl;
    [split; constructor|].
  split.
  - f_equal; [|exact IH1]. destruct r; simpl; [reflexivity|].
    now rewrite Hsame.
  - constructor; [|exact IH2]. destruct r; [exact I|lia].
Qed.

(** What one source line contributes to the IR. *)
Definition line_elements (raw : string) : list element :=
  contents (parse_line cleared raw).

Lemma parse_line_contents self raw :
  allocated self ->
  contents (parse_line self raw) = contents self ++ line_elements raw /\
  allocated (parse_line self raw).
Proof.
  intros Hal. unfold line_elements, parse_line.
  destruct (is_empty (strip raw) || comment_pattern_match (strip raw)).
  { split; [now rewrite app_nil_r|exact Hal]. }
  destruct self as [st tbl refs]. unfold allocated, contents in *. simpl in *.
  destruct (label_pattern_match (strip raw)) as [[label_name rest]|].
  - assert (Hext : forall a d, a < List.length st ->
              nth a (st ++ [mkLabel label_name None]) d = nth a st d)
      by (intros; now apply app_nth1).
    destruct (negb (is_empty (strip rest)));
      [destruct (_parse_instruction rest) as [instr|]|]; simpl.
    + assert (Hset : forall a d, a < List.length st ->
                nth a (set_instruction (st ++ [mkLabel label_name None])
                         (List.length st) instr) d = nth a st d).
      { intros a d Ha. rewrite set_instruction_other by lia. now apply Hext. }
      destruct (@deref_old st
                  (set_instruction (st ++ [mkLabel label_name None])
                     (List.length st) instr) refs) as [E1 E2]; auto.
      { rewrite set_instruction_length, length_app. simpl. lia. }
      rewrite !map_app, E1. simpl. rewrite set_instruction_last.
      rewrite <- app_assoc. simpl. split; [reflexivity|].
      rewrite <- app_assoc. apply Forall_app. split; [exact E2|].
      repeat constructor.
      rewrite set_instruction_length, length_app. simpl. lia.
    + destruct (@deref_old st (st ++ [mkLabel label_name None]) refs)
        as [E1 E2]; auto.
      { rewrite length_app. simpl. lia. }
      rewrite !map_app, E1. simpl. rewrite nth_middle.
      split; [reflexivity|].
      apply Forall_app. split; [exact E2|].
      repeat constructor. rewrite length_app. simpl. lia.
    + destruct (@deref_old st (st ++ [mkLabel label_name None]) refs)
        as [E1 E2]; auto.
      { rewrite length_app. simpl. lia. }
      rewrite !map_app, E1. simpl. rewrite nth_middle.
      split; [reflexivity|].
      apply Forall_app. split; [exact E2|].
      repeat constructor. rewrite length_app. simpl. lia.
  - destruct (_parse_instruction (strip raw)) as [instr|]; simpl.
    + rewrite map_app. split; [reflexivity|].
      apply Forall_app. split; [exact Hal|repeat constructor].
    + split; [now rewrite app_nil_r|exact Hal].
Qed.

Lemma parse_lines_contents lines :
  forall self, allocated self ->
    contents (fold_left parse_line lines self) =
    contents self ++ flat_map line_elements lines.
Proof.
  induction lines as [|raw lines IH]; intros self Hal; simpl.
  - now rewrite app_nil_r.
  - destruct (parse_line_contents raw Hal) as [E Hal'].
    rewrite (IH _ Hal'), E. now rewrite <- app_assoc.
Qed.

(** The IR is the concatenation of what the lines contribute, in order. *)
Lemma parse_text_lines text :
  parse_text text = flat_map line_elements (splitlines text).
Proof.
  unfold parse_text, parse_lines.
  now rewrite parse_lines_contents by constructor.
Qed.

Lemma string_forall_impl (p q : ascii -> bool) s :
  (forall c, p c = true -> q c = true) ->
  string_forall p s = true -> string_forall q s = true.
Proof.
  intros Hpq. induction s as [|c r IH]; [reflexivity|]. simpl. intros H.
  apply andb_prop in H as [Hc Hr]. now rewrite (Hpq c Hc), IH.
Qed.

Lemma strip_no_space s :
  string_forall (fun c => negb (isspace c)) s = true -> strip s = s.
Proof.
  assert (Hr : forall t,
    string_forall (fun c => negb (isspace c)) t = true -> rstrip t = t).
  { induction t as [|c r IH]; [reflexivity|]. simpl. intros H.
    apply andb_prop in H as [Hc Hr]. rewrite (IH Hr).
    apply negb_true_iff in Hc. rewrite Hc. now destruct r. }
  intros H. unfold strip, lstrip. destruct s as [|c r]; [reflexivity|].
  pose proof H as H'. simpl in H'. apply andb_prop in H' as [Hc _].
  apply negb_true_iff in Hc. simpl drop_while. rewrite Hc. now apply Hr.
Qed.

Lemma take_while_app p a c b :
  string_forall p a = true -> p c = false ->
  take_while p (a ++ String c b)%string = a.
Proof.
  intros Ha Hc. induction a as [|x a IH]; simpl in *; [now rewrite Hc|].
  apply andb_prop in Ha as [Hx Ha]. now rewrite Hx, IH.
Qed.

Lemma drop_while_app p a c b :
  string_forall p a = true -> p c = false ->
  drop_while p (a ++ String c b)%string = String c b.
Proof.
  intros Ha Hc. induction a as [|x a IH]; simpl in *; [now rewrite Hc|].
  apply andb_prop in Ha as [Hx Ha]. now rewrite Hx, IH.
Qed.

Lemma lower_alpha s :
  string_forall is_alpha s = true ->
  string_forall (in_range 97 122) (lower s) = true.
Proof.
  induction s as [|c r IH]; [reflexivity|]. simpl. intros H.
  apply andb_prop in H as [Hc Hr]. now rewrite (alpha_lower c Hc), IH.
Qed.

(** A stripped line that reads NAME, colon, rest matches the label
    pattern, and neither of the two earlier tests. *)
Lemma label_line_match label_name rest0 :
  is_identifier label_name = true ->
  let line := (label_name ++ ":" ++ rest0)%string in
  is_empty line = false /\ comment_pattern_match line = false /\
  label_pattern_match line = Some (label_name, lstrip rest0).
Proof.
  destruct label_name as [|c tail]; [discriminate|]. simpl. intros H.
  apply andb_prop in H as [Hc Ht].
  unfold comment_pattern_match, label_pattern_match.
  rewrite (@lstrip_fixed c _ (ident_start_not_space c Hc)).
  rewrite Hc, (ident_start_not_hash c Hc).
  rewrite (@drop_while_app is_ident_char tail ":"%char rest0 Ht eq_refl).
  rewrite (@take_while_app is_ident_char tail ":"%char rest0 Ht eq_refl).
  auto.
Qed.

Lemma instruction_pattern_groups line :
  instruction_pattern_match line = None /\
    take_while is_alpha (lstrip line) = EmptyString \/
  exists args_str note,
    instruction_pattern_match line =
      Some (take_while is_alpha (lstrip line), args_str, note) /\
    take_while is_alpha (lstrip line) <> EmptyString.
Proof.
  unfold instruction_pattern_match.
  destruct (take_while is_alpha (lstrip line)) as [|c op] eqn:E; simpl;
    [now left|].
  right. destruct (split_hash _) as [[before after]|];
    do 2 eexists; split; try reflexivity; discriminate.
Qed.

Lemma alpha_not_hash c : is_alpha c = true -> (code c =? 35) = false.
Proof. by_char c. Qed.

(** A text that starts with a letter, after blanks, matches the instruction
    pattern, is not blank and is not a comment. *)
Lemma letter_line_parses t c r :
  lstrip t = String c r -> is_alpha c = true ->
  (exists i, _parse_instruction t = Some i /\
             opcode i = lower (take_while is_alpha (lstrip t)) /\
             original_text i = Some t) /\
  is_empty (strip t) = false /\ comment_pattern_match (strip t) = false.
Proof.
  intros Ht Hc. split; [|split].
  - unfold _parse_instruction.
    destruct (instruction_pattern_groups t)
      as [[_ E]|(args_str & note & E & _)].
    + rewrite Ht in E. simpl in E. rewrite Hc in E. discriminate.
    + rewrite E. eexists. split; [reflexivity|]. simpl. split; [|reflexivity].
      f_equal. apply strip_no_space.
      eapply string_forall_impl; [|apply take_while_all].
      intros x Hx. now rewrite (alpha_not_space x Hx).
  - unfold strip. rewrite Ht, (@rstrip_cons c r (alpha_not_space c Hc)).
    reflexivity.
  - unfold strip, comment_pattern_match.
    rewrite Ht, (@rstrip_cons c r (alpha_not_space c Hc)).
    rewrite (@lstrip_fixed c _ (alpha_not_space c Hc)).
    now apply alpha_not_hash.
Qed.

(** C8.  The IR is the concatenation, in line order, of what each line of
    [splitlines] contributes, and a line, once trimmed, is classified in
    this order: an empty line contributes nothing; a line whose first
    non-blank character is [#] contributes nothing; a line (without line
    boundary, as every line of the text is) that reads NAME, colon, rest
    contributes the Label NAME, and when the rest is not blank and parses
    as an instruction, that instruction is stored in the Label's
    [instruction] field and also follows the Label as an element of its own
    (when the rest does not parse, the Label stands alone).  The rest does
    parse whenever its first non-blank character is a letter: then the
    Label carries the instruction and the instruction follows it.  So
    [loop: ADD $t0, $t0, $t1 # inc] gives the Label [loop] with the [add]
    attached and the same [add] after it, and a text of blank and comment
    lines only parses to the empty IR. *)
Theorem parse_line_classification :
  (forall text, parse_text text = flat_map line_elements (splitlines text)) /\
  (forall raw, strip raw = EmptyString -> line_elements raw = []) /\
  (forall raw r, lstrip raw = String "#"%char r -> line_elements raw = []) /\
  (forall raw label_name rest0,
      string_forall (fun c => negb (is_linebreak c)) raw = true ->
      is_identifier label_name = true ->
      strip raw = (label_name ++ ":" ++ rest0)%string ->
      (is_empty (strip rest0) = true ->
         line_elements raw = [Lbl (mkLabel label_name None)]) /\
      (forall instr,
         is_empty (strip rest0) = false ->
         _parse_instruction (lstrip rest0) = Some instr ->
         line_elements raw =
         [Lbl (mkLabel label_name (Some instr)); Instr instr]) /\
      (is_empty (strip rest0) = false ->
         _parse_instruction (lstrip rest0) = None ->
         line_elements raw = [Lbl (mkLabel label_name None)]) /\
      (forall c r,
         lstrip rest0 = String c r -> is_alpha c = true ->
         exists instr,
           _parse_instruction (lstrip rest0) = Some instr /\
           opcode instr = lower (take_while is_alpha (lstrip rest0)) /\
           original_text instr = Some (lstrip rest0) /\
           line_elements raw =
           [Lbl (mkLabel label_name (Some instr)); Instr instr])) /\
  (forall text,
      Forall (fun raw => strip raw = EmptyString \/
                         exists r, lstrip raw = String "#"%char r)
             (splitlines text) ->
      parse_text text = []) /\
  parse_text ("loop: ADD $t0, $t0, $t1 # inc" ++ LF ++ "end:")%string =
    [Lbl (mkLabel "loop"
            (Some (mkInstruction "add" ["$t0"; "$t0"; "$t1"] (Some "inc")
                     (Some "ADD $t0, $t0, $t1 # inc"))));
     Instr (mkInstruction "add" ["$t0"; "$t0"; "$t1"] (Some "inc")
              (Some "ADD $t0, $t0, $t1 # inc"));
     Lbl (mkLabel "end" None)].
Proof.
  assert (Hblank : forall raw, strip raw = EmptyString ->
            line_elements raw = []).
  { intros raw H. unfold line_elements, parse_line. now rewrite H. }
  assert (Hcomment : forall raw r, lstrip raw = String "#"%char r ->
            line_elements raw = []).
  { intros raw r H. unfold line_elements, parse_line, strip.
    rewrite H, rstrip_cons by reflexivity. reflexivity. }
  split; [exact parse_text_lines|].
  split; [exact Hblank|]. split; [exact Hcomment|].
  split; [|split; [|reflexivity]].
  - intros raw label_name rest0 _ Hid Hraw.
    destruct (@label_line_match label_name rest0 Hid) as (H1 & H2 & H3).
    assert (Hstrip : strip (lstrip rest0) = strip rest0)
      by (unfold strip; now rewrite lstrip_idem).
    assert (Hsome : forall instr,
              is_empty (strip rest0) = false ->
              _parse_instruction (lstrip rest0) = Some instr ->
              line_elements raw =
              [Lbl (mkLabel label_name (Some instr)); Instr instr]).
    { intros instr He Hp. unfold line_elements, parse_line.
      rewrite Hraw, H1, H2, H3, Hstrip, He, Hp. reflexivity. }
    split; [|split; [exact Hsome|split]].
    + intros He. unfold line_elements, parse_line.
      rewrite Hraw, H1, H2, H3, Hstrip, He. reflexivity.
    + intros He Hp. unfold line_elements, parse_line.
      rewrite Hraw, H1, H2, H3, Hstrip, He, Hp. reflexivity.
    + intros c r Hl Hc.
      assert (Hl' : lstrip (lstrip rest0) = String c r)
        by now rewrite lstrip_idem.
      destruct (@letter_line_parses (lstrip rest0) c r Hl' Hc)
        as ((instr & Hp & Hop & Hot) & He & _).
      rewrite Hstrip in He. rewrite lstrip_idem in Hop.
      exists instr. repeat split; auto.
  - intros text H. rewrite parse_text_lines.
    induction H as [|raw lines [Hb|[r Hc]] _ IH]; simpl;
      [reflexivity|now rewrite (Hblank raw Hb)|now rewrite (Hcomment raw r Hc)].
Qed.

Lemma parse_line_classification_witness :
  parse_text ("  " ++ LF ++ "# only a comment" ++ LF ++ LF ++ "   # x")%string
    = [] /\
  line_elements "  loop:   ADD $t0, $t0, $t1 # inc  " =
    [Lbl (mkLabel "loop"
            (Some (mkInstruction "add" ["$t0"; "$t0"; "$t1"] (Some "inc")
                     (Some "ADD $t0, $t0, $t1 # inc"))));
     Instr (mkInstruction "add" ["$t0"; "$t0"; "$t1"] (Some "inc")
              (Some "ADD $t0, $t0, $t1 # inc"))] /\
  exists instr,
    _parse_instruction (lstrip "   ADD $t0, $t0, $t1 # inc") = Some instr /\
    opcode instr =
      lower (take_while is_alpha (lstrip "   ADD $t0, $t0, $t1 # inc")) /\
    original_text instr = Some (lstrip "   ADD $t0, $t0, $t1 # inc") /\
    line_elements "  loop:   ADD $t0, $t0, $t1 # inc  " =
      [Lbl (mkLabel "loop" (Some instr)); Instr instr].
Proof.
  split; [|split].
  - apply (proj1 (proj2 (proj2 (proj2 (proj2 parse_line_classification))))).
    repeat (apply Forall_cons;
            [first [left; reflexivity | right; eexists; reflexivity]|]).
    apply Forall_nil.
  - apply (proj1 (proj2 (proj1 (proj2 (proj2 (proj2 parse_line_classification)))
                           "  loop:   ADD $t0, $t0, $t1 # inc  " "loop"
                           "   ADD $t0, $t0, $t1 # inc"
                           eq_refl eq_refl eq_refl)));
      reflexivity.
  - apply (proj2 (proj2 (proj2 (proj1 (proj2 (proj2 (proj2 parse_line_classification)))
                           "  loop:   ADD $t0, $t0, $t1 # inc  " "loop"
                           "   ADD $t0, $t0, $t1 # inc"
                           eq_refl eq_refl eq_refl)))
             "A"%char "DD $t0, $t0, $t1 # inc");
      reflexivity.
Defined.

(** ** The parser: instruction lines *)

(** An operand as the parser stores it: not empty, trimmed, comma-free. *)
Definition operand_ok (a : string) : Prop :=
  a <> EmptyString /\ strip a = a /\
  string_forall (fun c => negb (code c =? 44)) a = true.

Lemma parsed_operands args_str :
  Forall operand_ok
    (map strip (filter (fun arg => negb (is_empty (strip arg)))
                       (split_comma args_str))).
Proof.
  pose proof (split_comma_pieces args_str) as H.
  induction H as [|piece pieces Hp _ IH]; simpl; [constructor|].
  destruct (is_empty (strip piece)) eqn:E; simpl; [exact IH|].
  constructor; [|exact IH]. repeat split.
  - intros E'. now rewrite E' in E.
  - apply strip_idem.
  - now apply strip_keeps.
Qed.

Lemma take_while_head p s :
  take_while p s <> EmptyString ->
  exists c r, s = String c r /\ p c = true.
Proof.
  destruct s as [|c r]; simpl; [congruence|].
  destruct (p c) eqn:E; [eauto|congruence].
Qed.

(** A trimmed line that parses as an instruction is neither blank nor a
    comment. *)
Lemma parsed_line_kind raw i :
  _parse_instruction (strip raw) = Some i ->
  is_empty (strip raw) = false /\ comment_pattern_match (strip raw) = false.
Proof.
  intros H. unfold _parse_instruction in H.
  destruct (instruction_pattern_groups (strip raw))
    as [[E _]|(args_str & note & _ & Hne)]; [rewrite E in H; discriminate|].
  destruct (take_while_head _ _ Hne) as (c & r & Hl & Hc).
  destruct (@letter_line_parses (strip raw) c r Hl Hc) as (_ & H1 & H2).
  now rewrite strip_idem in H1, H2.
Qed.

(** C9.  On a line (without line boundary, as every line of the text is):
    when it matches the instruction pattern, the stored opcode is the run of
    letters it starts with, lower-cased (so made of [a-z] only); the
    operands are the pieces of the operand text between commas, each
    trimmed, the ones that are empty after trimming left out (so every
    operand is non-empty, trimmed and comma-free); and the line itself is
    kept as original_text.  A line matches unless its first non-blank
    character is not a letter.  A line that matches (and is not a label
    line) contributes exactly that instruction to the IR; a line that does
    not match (and is not a label line) contributes no element and leaves
    the parser as it was, and nothing is raised: parsing is a total
    function. *)
Theorem parse_instruction_fields :
  (forall line i,
      string_forall (fun c => negb (is_linebreak c)) line = true ->
      _parse_instruction line = Some i ->
      exists args_str note,
        instruction_pattern_match line =
          Some (take_while is_alpha (lstrip line), args_str, note) /\
        opcode i = lower (take_while is_alpha (lstrip line)) /\
        opcode i <> EmptyString /\
        string_forall (in_range 97 122) (opcode i) = true /\
        args i = map strip
                   (filter (fun arg => negb (is_empty (strip arg)))
                           (split_comma args_str)) /\
        Forall operand_ok (args i) /\
        original_text i = Some line) /\
  (forall line,
      string_forall (fun c => negb (is_linebreak c)) line = true ->
      (_parse_instruction line = None <->
       take_while is_alpha (lstrip line) = EmptyString)) /\
  (forall raw i,
      string_forall (fun c => negb (is_linebreak c)) raw = true ->
      label_pattern_match (strip raw) = None ->
      _parse_instruction (strip raw) = Some i ->
      line_elements raw = [Instr i] /\
      forall self,
        parse_line self raw =
        mkParser (store self) (labels self) (instructions self ++ [RInstr i])) /\
  (forall raw,
      string_forall (fun c => negb (is_linebreak c)) raw = true ->
      label_pattern_match (strip raw) = None ->
      _parse_instruction (strip raw) = None ->
      line_elements raw = [] /\ forall self, parse_line self raw = self) /\
  _parse_instruction "ADD $t0,, $s0 , $zero" =
    Some (mkInstruction "add" ["$t0"; "$s0"; "$zero"] None
            (Some "ADD $t0,, $s0 , $zero")) /\
  parse_text ("  ADD $t0,, $s0 , $zero  # sum" ++ LF ++ ".data")%string =
    [Instr (mkInstruction "add" ["$t0"; "$s0"; "$zero"] (Some "sum")
              (Some "ADD $t0,, $s0 , $zero  # sum"))] /\
  parse_text (".data" ++ LF ++ "12, 13" ++ LF ++ "$t0")%string = [].
Proof.
  split; [|split; [|split; [|split; [|split; [|split]]]]]; try reflexivity.
  - intros line i _ H. unfold _parse_instruction in H.
    destruct (instruction_pattern_groups line)
      as [[E _]|(args_str & note & E & Hne)]; rewrite E in H;
      [discriminate|].
    injection H as <-. simpl.
    assert (Hop : string_forall is_alpha (take_while is_alpha (lstrip line))
                  = true) by apply take_while_all.
    assert (Hstrip : strip (take_while is_alpha (lstrip line)) =
                     take_while is_alpha (lstrip line)).
    { apply strip_no_space. eapply string_forall_impl; [|exact Hop].
      intros c Hc. now rewrite (alpha_not_space c Hc). }
    rewrite Hstrip. exists args_str, note. repeat split; auto.
    + destruct (take_while is_alpha (lstrip line)); [congruence|discriminate].
    + now apply lower_alpha.
    + apply parsed_operands.
  - intros line _. unfold _parse_instruction.
    destruct (instruction_pattern_groups line)
      as [[E E']|(args_str & note & E & Hne)]; rewrite E; split; auto;
      try discriminate; intros; congruence.
  - intros raw i _ Hl Hi.
    destruct (parsed_line_kind raw Hi) as [H1 H2].
    unfold line_elements, parse_line. rewrite H1, H2, Hl, Hi.
    split; [|intros self]; reflexivity.
  - intros raw _ Hl Hi. unfold line_elements, parse_line.
    rewrite Hl, Hi.
    split; [|intros self];
      destruct (is_empty (strip raw) || comment_pattern_match (strip raw));
      reflexivity.
Qed.

Lemma parse_instruction_fields_witness :
  (exists args_str note,
    instruction_pattern_match "LW $t2, 0($sp) # reload" =
      Some (take_while is_alpha (lstrip "LW $t2, 0($sp) # reload"),
            args_str, note) /\
    opcode (mkInstruction "lw" ["$t2"; "0($sp)"] (Some "reload")
              (Some "LW $t2, 0($sp) # reload")) =
      lower (take_while is_alpha (lstrip "LW $t2, 0($sp) # reload")) /\
    opcode (mkInstruction "lw" ["$t2"; "0($sp)"] (Some "reload")
              (Some "LW $t2, 0($sp) # reload")) <> EmptyString /\
    string_forall (in_range 97 122)
      (opcode (mkInstruction "lw" ["$t2"; "0($sp)"] (Some "reload")
                 (Some "LW $t2, 0($sp) # reload"))) = true /\
    args (mkInstruction "lw" ["$t2"; "0($sp)"] (Some "reload")
            (Some "LW $t2, 0($sp) # reload")) =
      map strip (filter (fun arg => negb (is_empty (strip arg)))
                        (split_comma args_str)) /\
    Forall operand_ok
      (args (mkInstruction "lw" ["$t2"; "0($sp)"] (Some "reload")
               (Some "LW $t2, 0($sp) # reload"))) /\
    original_text (mkInstruction "lw" ["$t2"; "0($sp)"] (Some "reload")
                     (Some "LW $t2, 0($sp) # reload")) =
      Some "LW $t2, 0($sp) # reload") /\
  (line_elements "   LW $t2, 0($sp) # reload  " =
     [Instr (mkInstruction "lw" ["$t2"; "0($sp)"] (Some "reload")
               (Some "LW $t2, 0($sp) # reload"))] /\
   forall self,
     parse_line self "   LW $t2, 0($sp) # reload  " =
     mkParser (store self) (labels self)
       (instructions self
          ++ [RInstr (mkInstruction "lw" ["$t2"; "0($sp)"] (Some "reload")
                        (Some "LW $t2, 0($sp) # reload"))])) /\
  (line_elements "  .data " = [] /\
   forall self, parse_line self "  .data " = self).
Proof.
  split; [|split].
  - apply (proj1 parse_instruction_fields); reflexivity.
  - apply (proj1 (proj2 (proj2 parse_instruction_fields))); reflexivity.
  - apply (proj1 (proj2 (proj2 (proj2 parse_instruction_fields))));
      reflexivity.
Defined.

(** * Further properties of the optimizer *)

Lemma cursor_sizes s k t :
  try_patterns patterns s 0 = Ok (Some (k, t)) ->
  k <= List.length s /\ 1 <= List.length t <= k /\ k <= 2 * List.length t.
Proof.
  intros H. apply cursor_some_shape in H.
  destruct H as [(x & rest & d & a & n & -> & -> & _ & ->)
                |[(x & y & rest & d & a & n & -> & -> & _ & _ & ->)
                 |(x & y & rest & d & a & n & -> & -> & _ & _ & ->)]];
    simpl; lia.
Qed.

Lemma scan_lengths s ps :
  scan s ps ->
  List.length (flat_map piece_out ps) <= List.length s /\
  List.length s <= 2 * List.length (flat_map piece_out ps).
Proof.
  induction 1 as [|x rest ps _ _ IH|s k t ps Hc _ IH]; simpl.
  - lia.
  - lia.
  - destruct (@cursor_sizes s k t Hc) as (Hk & Ht & Ht2).
    rewrite length_app. rewrite length_skipn in IH. lia.
Qed.

(** X1.  The pass never lengthens a sequence and never shortens it to less
    than half: a window of one or two elements is replaced by at least one
    and at most as many elements. *)
Theorem optimize_length_bounds s out :
  optimize s = Ok out ->
  List.length out <= List.length s /\ List.length s <= 2 * List.length out.
Proof.
  intros H.
  destruct (optimize_scan (n := List.length s) s (le_n _) H)
    as (ps & Hps & <-).
  now apply scan_lengths.
Qed.

Lemma optimize_length_bounds_witness :
  List.length [Instr (ins "sw" ["$t1"; "0($sp)"]);
               new_move "$t2" "$t1" "None"; new_move "$t3" "$t0" "None and None"]
    <= List.length
         [Instr (ins "sw" ["$t1"; "0($sp)"]);
          Instr (ins "lw" ["$t2"; "0($sp)"]);
          Instr (ins "move" ["$t1"; "$t0"]);
          Instr (ins "add" ["$t3"; "$t1"; "$zero"])] /\
  List.length
    [Instr (ins "sw" ["$t1"; "0($sp)"]);
     Instr (ins "lw" ["$t2"; "0($sp)"]);
     Instr (ins "move" ["$t1"; "$t0"]);
     Instr (ins "add" ["$t3"; "$t1"; "$zero"])]
    <= 2 * List.length
             [Instr (ins "sw" ["$t1"; "0($sp)"]);
              new_move "$t2" "$t1" "None";
              new_move "$t3" "$t0" "None and None"].
Proof. apply optimize_length_bounds. reflexivity. Defined.

(** X2.  A matcher returns 0 or the size of its window (1 for add-zero, 2
    for the two pair patterns), and a positive result never exceeds the
    number of elements it was given: the slice handed to the transformer is
    never cut short and the cursor never passes the end. *)
Theorem match_length_bounds :
  (forall s n, _match_add_zero s = Ok n ->
      (n = 0 \/ n = 1) /\ n <= List.length s) /\
  (forall s n, _match_redundant_move s = Ok n ->
      (n = 0 \/ n = 2) /\ n <= List.length s) /\
  (forall s n, _match_redundant_load_store s = Ok n ->
      (n = 0 \/ n = 2) /\ n <= List.length s).
Proof.
  split; [|split]; intros s n H.
  - destruct s as [|x rest]; [injection H as <-; simpl; auto|].
    open_elt x; crunch; auto with arith.
  - destruct s as [|x [|y rest]];
      [injection H as <-; simpl; auto|injection H as <-; simpl; auto|].
    open_elt x; open_elt y; crunch; auto with arith.
  - destruct s as [|x [|y rest]];
      [injection H as <-; simpl; auto|injection H as <-; simpl; auto|].
    open_elt x; open_elt y; crunch; auto with arith.
Qed.

Lemma match_length_bounds_witness :
  (2 = 0 \/ 2 = 2) /\
  2 <= List.length [Instr (ins "sw" ["$t1"; "0($sp)"]);
                    Instr (ins "lw" ["$t2"; "0($sp)"]);
                    Instr (ins "jr" ["$ra"])].
Proof.
  apply (proj2 (proj2 match_length_bounds)). reflexivity.
Defined.

Lemma cursor_raises s e :
  try_patterns patterns s 0 = Raise e -> e = IndexError.
Proof.
  intros H. destruct s as [|x [|y rest]]; [discriminate| |].
  - open_elt x; crunch.
  - open_elt x; open_elt y; crunch;
      match goal with
      | H : Raise _ = Raise _ |- _ => injection H as <-; reflexivity
      end.
Qed.

(** X3.  The only exception the pass can raise is IndexError: thanks to the
    isinstance checks no attribute of a Label is ever read. *)
Theorem optimize_raises_only_index_error s e :
  optimize s = Raise e -> e = IndexError.
Proof.
  unfold optimize. remember (List.length s) as n eqn:Hn.
  assert (Hle : List.length s <= n) by lia. clear Hn.
  revert s Hle. induction n as [|n IH]; intros s Hle H.
  - destruct s; [discriminate|simpl in Hle; lia].
  - destruct s as [|x rest]; [discriminate|].
    rewrite optimize_with_cons in H.
    destruct (try_patterns patterns (x :: rest) 0)
      as [ [ [k t] | ] | err ] eqn:Hc.
    + destruct (optimize_with patterns (skipn k (x :: rest))) eqn:Hr;
        [discriminate|].
      injection H as <-. apply IH in Hr; [exact Hr|].
      pose proof (try_patterns_positive _ _ _ Hc). rewrite length_skipn.
      change (List.length (x :: rest)) with (S (List.length rest)) in *. lia.
    + destruct (optimize_with patterns rest) eqn:Hr; [discriminate|].
      injection H as <-. apply IH in Hr; [exact Hr|simpl in Hle; lia].
    + injection H as <-. eapply cursor_raises; eauto.
Qed.

Lemma optimize_raises_only_index_error_witness :
  IndexError = IndexError.
Proof.
  apply (@optimize_raises_only_index_error
           [Instr (ins "sw" ["$t1"]); Instr (ins "lw" ["$t2"; "0($sp)"])]).
  reflexivity.
Defined.

(** An element whose operands the patterns may read without a check has
    them: a [move], [sw] or [lw] has at least two operands. *)
Definition operands_present (e : element) : bool :=
  match e with
  | Instr i =>
      if (opcode i =? "move")%string || (opcode i =? "sw")%string
         || (opcode i =? "lw")%string
      then 2 <=? List.length (args i) else true
  | Lbl _ => true
  end.

Lemma cursor_returns s :
  forallb operands_present (firstn 2 s) = true ->
  exists r, try_patterns patterns s 0 = Ok r.
Proof.
  intros H. destruct s as [|x [|y rest]]; [eexists; reflexivity| |].
  - open_elt x; crunch; eexists; reflexivity.
  - open_elt x; open_elt y; crunch; eexists; reflexivity.
Qed.

(** X4.  On a sequence in which every [move], [sw] and [lw] has at least
    two operands the pass raises nothing and returns a sequence. *)
Theorem optimize_returns_on_full_operands s :
  forallb operands_present s = true -> exists out, optimize s = Ok out.
Proof.
  unfold optimize. remember (List.length s) as n eqn:Hn.
  assert (Hle : List.length s <= n) by lia. clear Hn.
  revert s Hle. induction n as [|n IH]; intros s Hle H.
  - destruct s; [exists []; apply optimize_with_nil|simpl in Hle; lia].
  - destruct s as [|x rest]; [exists []; apply optimize_with_nil|].
    assert (Hskip : forall k, forallb operands_present (skipn k (x :: rest))
                              = true).
    { intros k. rewrite <- (firstn_skipn k (x :: rest)), forallb_app in H.
      now apply andb_prop in H. }
    assert (Hfirst : forallb operands_present (firstn 2 (x :: rest)) = true).
    { rewrite <- (firstn_skipn 2 (x :: rest)), forallb_app in H.
      now apply andb_prop in H. }
    rewrite optimize_with_cons.
    destruct (cursor_returns _ Hfirst) as [[[k t]|] Hc]; rewrite Hc.
    + destruct (IH (skipn k (x :: rest))) as [r Hr]; [|apply Hskip|].
      { pose proof (try_patterns_positive _ _ _ Hc). rewrite length_skipn.
        change (List.length (x :: rest)) with (S (List.length rest)) in *.
        lia. }
      rewrite Hr. eexists; reflexivity.
    + destruct (IH rest) as [r Hr]; [simpl in Hle; lia|apply (Hskip 1)|].
      rewrite Hr. eexists; reflexivity.
Qed.

Lemma optimize_returns_on_full_operands_witness :
  exists out,
    optimize [Instr (ins "move" ["$t1"; "$t0"]);
              Instr (ins "add" ["$t2"; "$t1"; "$zero"]);
              Lbl (mkLabel "L" None);
              Instr (ins "sw" ["$t2"; "0($sp)"]);
              Instr (ins "lw" ["$t3"; "4($sp)"])] = Ok out.
Proof. apply optimize_returns_on_full_operands. reflexivity. Defined.

Lemma cursor_quiet x rest :
  add_zero_shape x = false -> has_opcode "sw" x = false ->
  (forall y rest', rest = y :: rest' -> add_zero_shape y = false) ->
  try_patterns patterns (x :: rest) 0 = Ok None.
Proof.
  intros H1 H2 H3. destruct rest as [|y rest'].
  - open_elt x; crunch; reflexivity.
  - specialize (H3 y rest' eq_refl).
    open_elt x; open_elt y; crunch; reflexivity.
Qed.

(** X5.  A sequence that holds no [add] of the shape [add rd, rs, $zero] and
    no [sw] gives no pattern anything to match: the pass returns it
    unchanged (whatever the operand counts of its other instructions). *)
Theorem optimize_leaves_unmatched_input s :
  forallb (fun e => negb (add_zero_shape e) && negb (has_opcode "sw" e)) s
    = true ->
  optimize s = Ok s.
Proof.
  intros H. apply optimize_stable.
  induction s as [|x rest IH]; [exact I|].
  simpl in H. apply andb_prop in H as [Hx Hrest].
  apply andb_prop in Hx as [Hx1 Hx2].
  apply negb_true_iff in Hx1. apply negb_true_iff in Hx2.
  split; [|now apply IH].
  apply cursor_quiet; auto.
  intros y rest' ->. simpl in Hrest. apply andb_prop in Hrest as [Hy _].
  apply andb_prop in Hy as [Hy _]. now apply negb_true_iff in Hy.
Qed.

Lemma optimize_leaves_unmatched_input_witness :
  optimize [Instr (ins "move" []); Instr (ins "add" ["$t0"; "$t1"; "$t2"]);
            Lbl (mkLabel "L" None); Instr (ins "lw" ["$t3"])] =
  Ok [Instr (ins "move" []); Instr (ins "add" ["$t0"; "$t1"; "$t2"]);
      Lbl (mkLabel "L" None); Instr (ins "lw" ["$t3"])].
Proof. apply optimize_leaves_unmatched_input. reflexivity. Defined.

(** X6.  After one pass no instruction of the shape [add rd, rs, $zero] is
    left: each one is rewritten at its own cursor or absorbed by the [move]
    before it. *)
Theorem optimize_removes_every_add_zero s out :
  optimize s = Ok out -> forallb (fun e => negb (add_zero_shape e)) out = true.
Proof.
  intros H.
  destruct (optimize_output_stable (n := List.length s) s (le_n _) H)
    as (_ & Hsh & _).
  apply forallb_forall. intros e He.
  rewrite Forall_forall in Hsh. now rewrite (Hsh e He).
Qed.

Lemma optimize_removes_every_add_zero_witness :
  forallb (fun e => negb (add_zero_shape e))
    [new_move "$t2" "$t0" "None and None"; new_move "$t3" "$t2" "None"] = true.
Proof.
  apply (@optimize_removes_every_add_zero
           [Instr (ins "move" ["$t1"; "$t0"]);
            Instr (ins "add" ["$t2"; "$t1"; "$zero"]);
            Instr (ins "add" ["$t3"; "$t2"; "$zero"])]).
  reflexivity.
Defined.

(** X7.  The loop itself only copies: for any list of patterns, if at
    every cursor position every matcher returns 0, the pass returns its
    input, element for element; in particular with no pattern at all. *)
Theorem optimize_with_copies pats s :
  (forall k, k < List.length s ->
     Forall (fun p => fst p (skipn k s) = Ok 0) pats) ->
  optimize_with pats s = Ok s.
Proof.
  assert (Hnone : forall l,
    Forall (fun p : matcher * transformer => fst p l = Ok 0) pats ->
    try_patterns pats l 0 = Ok None).
  { intros l H. induction H as [|[m t] ps Hm _ IH]; [reflexivity|].
    simpl in *. now rewrite Hm. }
  induction s as [|x rest IH]; intros H; [reflexivity|].
  pose proof (Hnone (x :: rest) (H 0 (Nat.lt_0_succ _))) as E.
  rewrite optimize_with_cons, E.
  rewrite IH; [reflexivity|].
  intros k Hk. apply (H (S k)). simpl. lia.
Qed.

Lemma optimize_with_copies_witness :
  optimize_with [(_match_add_zero, _transform_add_zero)]
    [Instr (ins "move" ["$t1"; "$t0"]); Lbl (mkLabel "L" None)] =
  Ok [Instr (ins "move" ["$t1"; "$t0"]); Lbl (mkLabel "L" None)].
Proof.
  apply optimize_with_copies. intros k Hk.
  destruct k as [|[|k]]; [repeat constructor..|simpl in Hk; lia].
Defined.

(** * Further properties of the parser *)

Lemma set_instruction_app_last st l i :
  set_instruction (st ++ [l]) (List.length st) i =
  st ++ [mkLabel (name l) (Some i)].
Proof. induction st as [|l' st IH]; simpl; [reflexivity|now rewrite IH]. Qed.

Definition following (oi : option Instruction) : list ir_ref :=
  match oi with
  | Some i => [RInstr i]
  | None => []
  end.

Definition following_elements (oi : option Instruction) : list element :=
  match oi with
  | Some i => [Instr i]
  | None => []
  end.

(** The three things one turn of the loop can do to the parser. *)
Lemma parse_line_cases self raw :
  (parse_line self raw = self /\ line_elements raw = []) \/
  (exists i,
     parse_line self raw =
       mkParser (store self) (labels self) (instructions self ++ [RInstr i]) /\
     line_elements raw = [Instr i]) \/
  (exists label_name rest oi,
     label_pattern_match (strip raw) = Some (label_name, rest) /\
     parse_line self raw =
       mkParser (store self ++ [mkLabel label_name oi])
                (dict_set (labels self) label_name (List.length (store self)))
                (instructions self ++ RLabel (List.length (store self))
                   :: following oi) /\
     line_elements raw = Lbl (mkLabel label_name oi) :: following_elements oi).
Proof.
  unfold line_elements, parse_line.
  destruct (is_empty (strip raw) || comment_pattern_match (strip raw));
    [left; split; reflexivity|].
  destruct (label_pattern_match (strip raw)) as [[label_name rest]|].
  - right; right. exists label_name, rest.
    destruct (negb (is_empty (strip rest)));
      [destruct (_parse_instruction rest) as [instr|]|].
    + exists (Some instr). split; [reflexivity|]. simpl.
      rewrite set_instruction_app_last. simpl.
      rewrite <- app_assoc. split; reflexivity.
    + exists None. repeat split; reflexivity.
    + exists None. repeat split; reflexivity.
  - destruct (_parse_instruction (strip raw)) as [instr|].
    + right; left. exists instr. split; reflexivity.
    + left. split; reflexivity.
Qed.

(** The last Label of a sequence that bears a given name. *)
Fixpoint last_label (n : string) (els : list element) : option Label :=
  match els with
  | [] => None
  | e :: rest =>
      match last_label n rest with
      | Some l => Some l
      | None =>
          match e with
          | Lbl l => if (name l =? n)%string then Some l else None
          | Instr _ => None
          end
      end
  end.

Lemma last_label_app n a b :
  last_label n (a ++ b) =
  match last_label n b with
  | Some l => Some l
  | None => last_label n a
  end.
Proof.
  induction a as [|e a IH]; simpl; [now destruct (last_label n b)|].
  rewrite IH. now destruct (last_label n b).
Qed.

Lemma dict_get_set d k v k' :
  dict_get (dict_set d k v) k' =
  if (k =? k')%string then Some v else dict_get d k'.
Proof.
  induction d as [|[k0 v0] d IH]; simpl.
  - reflexivity.
  - destruct (String.eqb_spec k0 k) as [->|Hne]; simpl.
    + now destruct (String.eqb_spec k k').
    + rewrite IH. destruct (String.eqb_spec k0 k') as [->|]; [|reflexivity].
      destruct (String.eqb_spec k k'); [congruence|reflexivity].
Qed.

(** The table points into the store, and looking a name up gives the last
    Label of that name in the list. *)
Definition table_ok (self : MIPSParser) : Prop :=
  allocated self /\
  (forall k a, dict_get (labels self) k = Some a ->
               a < List.length (store self)) /\
  (forall n, get_label self n = last_label n (contents self)).

Lemma parse_line_table self raw :
  table_ok self -> table_ok (parse_line self raw).
Proof.
  intros (Hal & Hin & Hget).
  destruct (parse_line_contents raw Hal) as [Hcont Hal'].
  destruct (parse_line_cases self raw)
    as [[E El]|[(i & E & El)|(label_name & rest & oi & _ & E & El)]].
  - rewrite E. repeat split; auto.
  - repeat split; [exact Hal'|rewrite E; exact Hin|].
    intros n. rewrite Hcont, El, last_label_app. simpl.
    rewrite <- Hget. rewrite E. reflexivity.
  - repeat split; [exact Hal'| |].
    + rewrite E. simpl. intros k a. rewrite dict_get_set, length_app. simpl.
      destruct (label_name =? k)%string.
      * intros [= <-]. lia.
      * intros H. apply Hin in H. lia.
    + intros n.
      assert (Hfol : last_label n (Lbl (mkLabel label_name oi)
                                     :: following_elements oi) =
                     if (label_name =? n)%string
                     then Some (mkLabel label_name oi) else None)
        by (destruct oi; reflexivity).
      rewrite Hcont, El, last_label_app, Hfol.
      rewrite E. unfold get_label. cbn [labels store].
      rewrite dict_get_set.
      destruct (label_name =? n)%string.
      * now rewrite nth_error_app2, Nat.sub_diag by lia.
      * rewrite <- Hget. unfold get_label.
        destruct (dict_get (labels self) n) as [a|] eqn:Ea; [|reflexivity].
        apply Hin in Ea. now rewrite nth_error_app1.
Qed.

Lemma parse_lines_table lines :
  forall self, table_ok self -> table_ok (fold_left parse_line lines self).
Proof.
  induction lines as [|raw lines IH]; intros self H; simpl; [exact H|].
  apply IH. now apply parse_line_table.
Qed.

(** X8.  After [parse_text], [get_label] returns for every name the last
    Label of that name in the returned IR, with the instruction attached to
    it, and None for a name no Label bears: a label declared twice keeps
    both elements in the IR but only the later one in the table. *)
Theorem get_label_is_last_label text n :
  get_label (parse_lines (splitlines text)) n =
  last_label n (parse_text text).
Proof.
  assert (H : table_ok (parse_lines (splitlines text))).
  { apply parse_lines_table. repeat split; [constructor|discriminate]. }
  destruct H as (_ & _ & H). apply H.
Qed.

(** A Label that carries an instruction is directly followed by it. *)
Fixpoint attached_ok (els : list element) : Prop :=
  match els with
  | [] => True
  | Lbl l :: rest =>
      match instruction l with
      | Some i => exists rest', rest = Instr i :: rest'
      | None => True
      end /\ attached_ok rest
  | Instr _ :: rest => attached_ok rest
  end.

Lemma attached_ok_app a b :
  attached_ok a -> attached_ok b -> attached_ok (a ++ b).
Proof.
  induction a as [|[i|l] a IH]; simpl; auto.
  intros [Hl Ha] Hb. split; [|auto].
  destruct (instruction l); [|exact I].
  destruct Hl as [rest' ->]. simpl. eauto.
Qed.

Lemma label_pattern_name line label_name rest :
  label_pattern_match line = Some (label_name, rest) ->
  is_identifier label_name = true.
Proof.
  unfold label_pattern_match. destruct (lstrip line) as [|c r]; [discriminate|].
  destruct (is_ident_start c) eqn:Hc; [|discriminate].
  destruct (drop_while is_ident_char r) as [|c' r']; [discriminate|].
  destruct (code c' =? 58); [|discriminate].
  intros [= <- _]. simpl. now rewrite Hc, take_while_all.
Qed.

(** X9.  In the IR that [parse_text] returns, every Label that carries an
    instruction is immediately followed by that very instruction as an
    element of its own, and every Label name is an identifier (a letter or
    underscore followed by letters, digits and underscores). *)
Theorem parsed_labels_attached text :
  attached_ok (parse_text text) /\
  Forall (fun l => is_identifier (name l) = true) (labels_of (parse_text text)).
Proof.
  rewrite parse_text_lines.
  induction (splitlines text) as [|raw lines [IH1 IH2]]; simpl;
    [split; [exact I|constructor]|].
  rewrite labels_of_app.
  destruct (parse_line_cases cleared raw)
    as [[_ El]|[(i & _ & El)|(label_name & rest & oi & Hm & _ & El)]];
    rewrite El; simpl; auto.
  apply label_pattern_name in Hm.
  destruct oi as [i|]; simpl; repeat split; eauto.
Qed.



(** ** Rendering (the two [__str__] methods) *)

(** [sep.join(l)] *)
Fixpoint join (sep : string) (l : list string) : string :=
  match l with
  | [] => EmptyString
  | a :: l' =>
      match l' with
      | [] => a
      | _ :: _ => (a ++ sep ++ join sep l')%string
      end
  end.

(** [Instruction.__str__]: the comment is appended only when it is neither
    None nor empty. *)
Definition Instruction_str (self : Instruction) : string :=
  let instruction := (opcode self ++ " " ++ join ", " (args self))%string in
  match comment self with
  | Some c =>
      if is_empty c then instruction else (instruction ++ " # " ++ c)%string
  | None => instruction
  end.

(** [Label.__str__] *)
Definition Label_str (self : Label) : string := (name self ++ ":")%string.

(** An operand that survives rendering and parsing: not empty, trimmed, and
    free of commas, [#] and line boundaries. *)
Definition token_ok (a : string) : bool :=
  negb (is_empty a) && (strip a =? a)%string
  && string_forall (fun c => negb (code c =? 44)) a
  && string_forall (fun c => negb (code c =? 35)) a
  && string_forall (fun c => negb (is_linebreak c)) a.

Definition note_ok (c : string) : bool :=
  negb (is_empty c) && (strip c =? c)%string
  && string_forall (fun c => negb (is_linebreak c)) c.

(** The instructions the parser can produce: a lower-case opcode, operands
    as above, and a comment that is absent or not empty and trimmed. *)
Definition renderable (i : Instruction) : bool :=
  negb (is_empty (opcode i))
  && string_forall (in_range 97 122) (opcode i)
  && forallb token_ok (args i)
  && match comment i with
     | Some c => note_ok c
     | None => true
     end.

Lemma string_forall_app p a b :
  string_forall p (a ++ b)%string = string_forall p a && string_forall p b.
Proof.
  induction a as [|c a IH]; simpl; [reflexivity|].
  now rewrite IH, andb_assoc.
Qed.

Lemma lower_case_alpha c : in_range 97 122 c = true -> is_alpha c = true.
Proof. by_char c. Qed.

Lemma lower_case_fixed c : in_range 97 122 c = true -> lower_char c = c.
Proof. by_char c. Qed.

Lemma space_not_alpha : is_alpha " "%char = false.
Proof. reflexivity. Qed.

Lemma linebreak_cr c : is_linebreak c = false -> (code c =? 13) = false.
Proof. by_char c. Qed.

Lemma lower_fixed s :
  string_forall (in_range 97 122) s = true -> lower s = s.
Proof.
  induction s as [|c r IH]; [reflexivity|]. simpl. intros H.
  apply andb_prop in H as [Hc Hr]. now rewrite (lower_case_fixed c Hc), IH.
Qed.

Lemma strip_fixed_head a :
  a <> EmptyString -> strip a = a ->
  exists c r, a = String c r /\ isspace c = false.
Proof.
  intros Hne H. unfold strip in H.
  destruct (lstrip_head a) as [E|(c & r & E & Hc)]; rewrite E in H.
  - simpl in H. congruence.
  - rewrite (@rstrip_cons c r Hc) in H. exists c, (rstrip r). now split.
Qed.

Lemma strip_fixed_rstrip a : strip a = a -> rstrip a = a.
Proof.
  intros H. rewrite <- H at 1. unfold strip. rewrite rstrip_idem. exact H.
Qed.

Lemma strip_fixed_lstrip a : strip a = a -> lstrip a = a.
Proof.
  intros H. destruct a as [|c r]; [reflexivity|].
  destruct (@strip_fixed_head (String c r)) as (c' & r' & [= <- <-] & Hc);
    [discriminate|exact H|].
  now apply lstrip_fixed.
Qed.

Lemma rstrip_app x y :
  rstrip (x ++ y)%string =
  match rstrip y with
  | EmptyString => rstrip x
  | y' => (x ++ y')%string
  end.
Proof.
  induction x as [|c x IH]; simpl; [now destruct (rstrip y)|].
  rewrite IH. destruct (rstrip y) as [|c' y']; [reflexivity|].
  now destruct x.
Qed.

Lemma split_comma_plain a :
  string_forall (fun c => negb (code c =? 44)) a = true ->
  split_comma a = [a].
Proof.
  induction a as [|c r IH]; [reflexivity|]. simpl. intros H.
  apply andb_prop in H as [Hc Hr]. apply negb_true_iff in Hc.
  now rewrite Hc, (IH Hr).
Qed.

Lemma split_comma_app a s :
  string_forall (fun c => negb (code c =? 44)) a = true ->
  split_comma (a ++ String ","%char s)%string = a :: split_comma s.
Proof.
  induction a as [|c r IH]; [reflexivity|]. simpl. intros H.
  apply andb_prop in H as [Hc Hr]. apply negb_true_iff in Hc.
  now rewrite Hc, (IH Hr).
Qed.

Lemma split_comma_join a l :
  forallb (string_forall (fun c => negb (code c =? 44))) (a :: l) = true ->
  split_comma (join ", " (a :: l)) = a :: map (String " "%char) l.
Proof.
  revert a. induction l as [|b l IH]; intros a H.
  - simpl in *. apply split_comma_plain.
    now apply andb_prop in H as [H _].
  - change (join ", " (a :: b :: l))
      with (a ++ String ","%char (String " "%char (join ", " (b :: l))))%string.
    cbn [forallb] in H. apply andb_prop in H as [Ha Hl].
    rewrite (@split_comma_app a _ Ha).
    cbn [split_comma]. change (code " "%char =? 44) with false. cbv iota.
    now rewrite (IH b Hl).
Qed.

Lemma split_hash_plain s :
  string_forall (fun c => negb (code c =? 35)) s = true -> split_hash s = None.
Proof.
  induction s as [|c r IH]; [reflexivity|]. simpl. intros H.
  apply andb_prop in H as [Hc Hr]. apply negb_true_iff in Hc.
  now rewrite Hc, (IH Hr).
Qed.

Lemma split_hash_app s t :
  string_forall (fun c => negb (code c =? 35)) s = true ->
  split_hash (s ++ String "#"%char t)%string = Some (s, t).
Proof.
  induction s as [|c r IH]; [reflexivity|]. simpl. intros H.
  apply andb_prop in H as [Hc Hr]. apply negb_true_iff in Hc.
  now rewrite Hc, (IH Hr).
Qed.

Lemma token_ok_spec a :
  token_ok a = true ->
  a <> EmptyString /\ strip a = a /\
  string_forall (fun c => negb (code c =? 44)) a = true /\
  string_forall (fun c => negb (code c =? 35)) a = true /\
  string_forall (fun c => negb (is_linebreak c)) a = true.
Proof.
  unfold token_ok. intros H.
  apply andb_prop in H as [H H5]. apply andb_prop in H as [H H4].
  apply andb_prop in H as [H H3]. apply andb_prop in H as [H1 H2].
  apply String.eqb_eq in H2. repeat split; auto.
  intros ->. discriminate.
Qed.

Lemma join_tokens (p : ascii -> bool) l :
  p ","%char = true -> p " "%char = true ->
  forallb (string_forall p) l = true ->
  string_forall p (join ", " l) = true.
Proof.
  intros Hc Hs. induction l as [|a [|b l] IH]; intros H.
  - reflexivity.
  - simpl in *. now apply andb_prop in H as [H _].
  - change (join ", " (a :: b :: l))
      with (a ++ String ","%char (String " "%char (join ", " (b :: l))))%string.
    cbn [forallb] in H. apply andb_prop in H as [Ha Hl].
    rewrite string_forall_app, Ha. simpl. rewrite Hc, Hs. simpl.
    now apply IH.
Qed.

Lemma join_trimmed a l :
  forallb token_ok (a :: l) = true ->
  rstrip (join ", " (a :: l)) = join ", " (a :: l) /\
  exists c r, join ", " (a :: l) = String c r /\ isspace c = false.
Proof.
  revert a. induction l as [|b l IH]; intros a H.
  - simpl in *. apply andb_prop in H as [H _].
    destruct (token_ok_spec _ H) as (Hne & Hs & _).
    split; [now apply strip_fixed_rstrip|now apply strip_fixed_head].
  - change (join ", " (a :: b :: l))
      with (a ++ String ","%char (String " "%char (join ", " (b :: l))))%string.
    cbn [forallb] in H. apply andb_prop in H as [Ha Hl].
    destruct (IH b Hl) as [Hr (c & r & E & Hc)].
    destruct (token_ok_spec _ Ha) as (Hne & Hs & _).
    destruct (strip_fixed_head Hne Hs) as (c0 & r0 & -> & Hc0).
    split; [|simpl; eauto].
    rewrite rstrip_app.
    assert (Hrs : rstrip (String ","%char (String " "%char (join ", " (b :: l))))
                  = String ","%char (String " "%char (join ", " (b :: l)))).
    { rewrite (@rstrip_cons ","%char _ eq_refl).
      change (String " "%char (join ", " (b :: l)))
        with (" " ++ join ", " (b :: l))%string.
      rewrite rstrip_app, Hr, E. reflexivity. }
    now rewrite Hrs.
Qed.

Lemma parse_operands_join l :
  forallb token_ok l = true ->
  map strip (filter (fun arg => negb (is_empty (strip arg)))
                    (split_comma (join ", " l))) = l.
Proof.
  destruct l as [|a l]; [reflexivity|]. intros H.
  assert (Hcomma : forallb (string_forall (fun c => negb (code c =? 44)))
                     (a :: l) = true).
  { apply forallb_forall. intros x Hx.
    rewrite forallb_forall in H. now destruct (token_ok_spec _ (H x Hx))
      as (_ & _ & Hc & _). }
  rewrite (split_comma_join a l Hcomma).
  assert (Hstrip : forall b, token_ok b = true ->
            strip (String " "%char b) = b /\ strip b = b /\
            is_empty b = false).
  { intros b Hb. destruct (token_ok_spec _ Hb) as (Hne & Hs & _).
    repeat split; [exact Hs|exact Hs|now destruct b]. }
  cbn [forallb] in H. apply andb_prop in H as [Ha Hl].
  destruct (Hstrip a Ha) as (_ & Hsa & Hea).
  cbn [filter]. rewrite Hsa, Hea. cbn [negb map]. rewrite Hsa. f_equal.
  clear - Hl Hstrip. induction l as [|b l IH]; [reflexivity|].
  cbn [forallb] in Hl. apply andb_prop in Hl as [Hb Hl].
  destruct (Hstrip b Hb) as (Hsb & _ & Heb).
  cbn [map filter]. rewrite Hsb, Heb. cbn [negb map]. rewrite Hsb.
  now rewrite (IH Hl).
Qed.

Lemma string_app_assoc (a b c : string) :
  ((a ++ b) ++ c)%string = (a ++ b ++ c)%string.
Proof. induction a as [|x a IH]; simpl; [reflexivity|now rewrite IH]. Qed.

Lemma string_app_nil (a : string) : (a ++ "")%string = a.
Proof. induction a as [|x a IH]; simpl; [reflexivity|now rewrite IH]. Qed.

Lemma note_ok_spec c :
  note_ok c = true ->
  is_empty c = false /\ strip c = c /\
  string_forall (fun c => negb (is_linebreak c)) c = true.
Proof.
  unfold note_ok. intros H.
  apply andb_prop in H as [H H3]. apply andb_prop in H as [H1 H2].
  apply String.eqb_eq in H2. apply negb_true_iff in H1. auto.
Qed.

(** The groups the instruction pattern finds in a rendered instruction. *)
Lemma render_groups op l tail note :
  op <> EmptyString -> string_forall (in_range 97 122) op = true ->
  forallb token_ok l = true ->
  (tail = EmptyString /\ note = None \/
   exists c, tail = (" # " ++ c)%string /\ note = Some (lstrip c)) ->
  instruction_pattern_match (op ++ " " ++ join ", " l ++ tail)%string =
  Some (op, join ", " l, note).
Proof.
  intros Hne Hop Hl Htail.
  assert (Halpha : string_forall is_alpha op = true)
    by (eapply string_forall_impl; [apply lower_case_alpha|exact Hop]).
  unfold instruction_pattern_match.
  assert (Hls : lstrip (op ++ " " ++ join ", " l ++ tail)%string =
                (op ++ " " ++ join ", " l ++ tail)%string).
  { destruct op as [|c op]; [congruence|]. simpl in Halpha.
    apply andb_prop in Halpha as [Hc _].
    apply (@lstrip_fixed c _ (alpha_not_space c Hc)). }
  rewrite Hls.
  change (op ++ " " ++ join ", " l ++ tail)%string
    with (op ++ String " "%char (join ", " l ++ tail))%string.
  rewrite (@take_while_app is_alpha op " "%char _ Halpha space_not_alpha).
  rewrite (@drop_while_app is_alpha op " "%char _ Halpha space_not_alpha).
  replace (is_empty op) with false
    by (destruct op; [now destruct Hne|reflexivity]).
  change (lstrip (String " "%char (join ", " l ++ tail)))
    with (lstrip (join ", " l ++ tail)%string).
  assert (Hhash : string_forall (fun c => negb (code c =? 35)) (join ", " l)
                  = true).
  { apply join_tokens; try reflexivity. apply forallb_forall. intros x Hx.
    rewrite forallb_forall in Hl.
    now destruct (token_ok_spec _ (Hl x Hx)) as (_ & _ & _ & Hh & _). }
  destruct l as [|a l].
  - simpl join. simpl append.
    destruct Htail as [[-> ->]|(c & -> & ->)]; reflexivity.
  - destruct (join_trimmed a l Hl) as [Hr (c0 & r0 & E & Hc0)].
    assert (Hls2 : lstrip (join ", " (a :: l) ++ tail)%string =
                   (join ", " (a :: l) ++ tail)%string).
    { rewrite E. simpl. now apply lstrip_fixed. }
    rewrite Hls2.
    destruct Htail as [[-> ->]|(c & -> & ->)].
    + rewrite string_app_nil. now rewrite (split_hash_plain _ Hhash).
    + change (join ", " (a :: l) ++ " # " ++ c)%string
        with (join ", " (a :: l) ++ String " "%char (String "#"%char (" " ++ c)))%string.
      replace (join ", " (a :: l)
                 ++ String " "%char (String "#"%char (" " ++ c)))%string
        with ((join ", " (a :: l) ++ " ") ++ String "#"%char (" " ++ c))%string
        by apply string_app_assoc.
      rewrite split_hash_app.
      2:{ rewrite string_forall_app, Hhash. reflexivity. }
      rewrite rstrip_app. simpl rstrip at 1. cbv iota. rewrite Hr.
      reflexivity.
Qed.

Lemma render_parse i :
  renderable i = true ->
  _parse_instruction (Instruction_str i) =
  Some (mkInstruction (opcode i) (args i) (comment i)
          (Some (Instruction_str i))).
Proof.
  unfold renderable. intros H.
  apply andb_prop in H as [H Hnote]. apply andb_prop in H as [H Hargs].
  apply andb_prop in H as [Hne Hop].
  assert (Hne' : opcode i <> EmptyString)
    by (intros E; rewrite E in Hne; discriminate).
  assert (Hstrip : strip (opcode i) = opcode i).
  { apply strip_no_space. eapply string_forall_impl; [|exact Hop].
    intros c Hc. now rewrite (alpha_not_space c (lower_case_alpha c Hc)). }
  unfold _parse_instruction.
  assert (Hg : exists note,
    instruction_pattern_match (Instruction_str i) =
      Some (opcode i, join ", " (args i), note) /\
    match note with
    | Some c => if is_empty c then None else Some (strip c)
    | None => None
    end = comment i).
  { unfold Instruction_str. destruct (comment i) as [c|] eqn:Ec.
    - destruct (note_ok_spec _ Hnote) as (He & Hs & _). rewrite He.
      exists (Some (lstrip c)).
      rewrite (strip_fixed_lstrip Hs), He, Hs. split; [|reflexivity].
      rewrite <- (strip_fixed_lstrip Hs) at 2.
      replace ((opcode i ++ " " ++ join ", " (args i)) ++ " # " ++ c)%string
        with (opcode i ++ " " ++ join ", " (args i) ++ " # " ++ c)%string
        by (now rewrite !string_app_assoc).
      apply render_groups; eauto.
    - exists None. split; [|reflexivity].
      replace (opcode i ++ " " ++ join ", " (args i))%string
        with (opcode i ++ " " ++ join ", " (args i) ++ "")%string
        by (now rewrite string_app_nil).
      apply render_groups; auto. }
  destruct Hg as [note [Hm Hc]].
  rewrite Hm, Hstrip, (lower_fixed _ Hop), (parse_operands_join _ Hargs), Hc.
  reflexivity.
Qed.

Lemma split_comma_keeps q s :
  string_forall q s = true ->
  Forall (fun piece => string_forall q piece = true) (split_comma s).
Proof.
  induction s as [|c r IH]; simpl; intros H; [repeat constructor|].
  apply andb_prop in H as [Hc Hr]. specialize (IH Hr).
  destruct (code c =? 44); [constructor; [reflexivity|exact IH]|].
  destruct (split_comma r) as [|piece pieces];
    [repeat constructor; simpl; now rewrite Hc|].
  inversion IH as [|? ? Hp Hps]; subst.
  constructor; [simpl; now rewrite Hc, Hp|exact Hps].
Qed.

Lemma split_hash_none s :
  split_hash s = None ->
  string_forall (fun c => negb (code c =? 35)) s = true.
Proof.
  induction s as [|c r IH]; [reflexivity|]. simpl.
  destruct (code c =? 35); [discriminate|].
  destruct (split_hash r) as [[b a]|]; [discriminate|]. auto.
Qed.

Lemma split_hash_some q s before after :
  split_hash s = Some (before, after) ->
  string_forall (fun c => negb (code c =? 35)) before = true /\
  (string_forall q s = true ->
   string_forall q before = true /\ string_forall q after = true).
Proof.
  revert before. induction s as [|c r IH]; [discriminate|]. simpl.
  intros before. destruct (code c =? 35) eqn:E.
  - intros [= <- <-]. split; [reflexivity|]. intros H.
    apply andb_prop in H as [_ H]. auto.
  - destruct (split_hash r) as [[b a]|]; [|discriminate].
    intros [= <- <-]. destruct (IH b eq_refl) as [Hb Hq].
    split; [simpl; now rewrite E|].
    intros H. apply andb_prop in H as [Hc Hr].
    destruct (Hq Hr) as [H1 H2]. simpl. now rewrite Hc, H1.
Qed.

Lemma lower_not_empty s : is_empty (lower s) = is_empty s.
Proof. now destruct s. Qed.

(** What the parser stores is renderable. *)
Lemma parsed_renderable line i :
  string_forall (fun c => negb (is_linebreak c)) line = true ->
  _parse_instruction line = Some i -> renderable i = true.
Proof.
  intros Hlb H. unfold _parse_instruction in H.
  destruct (instruction_pattern_match line) as [[[op args_str] note]|] eqn:Hm;
    [|discriminate].
  injection H as <-. unfold instruction_pattern_match in Hm.
  set (s := lstrip line) in *.
  assert (Hs : string_forall (fun c => negb (is_linebreak c)) s = true)
    by now apply drop_while_keeps.
  destruct (is_empty (take_while is_alpha s)) eqn:He; [discriminate|].
  set (r := lstrip (drop_while is_alpha s)) in *.
  assert (Hr : string_forall (fun c => negb (is_linebreak c)) r = true)
    by now apply drop_while_keeps, drop_while_keeps.
  assert (Hgroups : op = take_while is_alpha s /\
            string_forall (fun c => negb (code c =? 35)) args_str = true /\
            string_forall (fun c => negb (is_linebreak c)) args_str = true /\
            match note with
            | Some c => string_forall (fun c => negb (is_linebreak c)) c = true
                        /\ lstrip c = c
            | None => True
            end).
  { destruct (split_hash r) as [[before after]|] eqn:Eh.
    - injection Hm as <- <- <-.
      destruct (@split_hash_some (fun c => negb (is_linebreak c)) r
                  before after Eh) as [Hb Hq].
      destruct (Hq Hr) as [Hb' Ha'].
      repeat split; auto using rstrip_keeps, drop_while_keeps, lstrip_idem.
      now apply drop_while_keeps.
    - injection Hm as <- <- <-.
      repeat split; auto using split_hash_none. }
  destruct Hgroups as (-> & Hhash & Hlbs & Hnote).
  assert (Halpha : string_forall is_alpha (take_while is_alpha s) = true)
    by apply take_while_all.
  assert (Hstrip : strip (take_while is_alpha s) = take_while is_alpha s).
  { apply strip_no_space. eapply string_forall_impl; [|exact Halpha].
    intros c Hc. now rewrite (alpha_not_space c Hc). }
  unfold renderable. simpl. rewrite Hstrip, lower_not_empty, He.
  rewrite (lower_alpha _ Halpha). simpl.
  apply andb_true_intro. split.
  - apply forallb_forall. intros a Ha. apply in_map_iff in Ha as (piece & <- & Hp).
    apply filter_In in Hp as [Hp Hne].
    pose proof (split_comma_pieces args_str) as Hc.
    pose proof (split_comma_keeps _ _ Hhash) as Hh.
    pose proof (split_comma_keeps _ _ Hlbs) as Hl.
    rewrite Forall_forall in Hc, Hh, Hl.
    unfold token_ok. rewrite Hne, strip_idem, String.eqb_refl.
    rewrite !strip_keeps; auto.
  - destruct note as [c|]; [|reflexivity].
    destruct Hnote as [Hc1 Hc2].
    destruct (is_empty c) eqn:Ec; [reflexivity|].
    unfold note_ok. rewrite strip_idem, String.eqb_refl, (strip_keeps _ _ Hc1).
    destruct c as [|x c']; [discriminate|].
    destruct (lstrip_head (String x c')) as [E|(x' & c'' & E & Hx)];
      rewrite Hc2 in E; [discriminate|].
    injection E as <- <-. now rewrite (@strip_head x c' Hx).
Qed.

(** X11.  Rendering an instruction and parsing the text gives the
    instruction back (with the rendered text as original_text), provided
    its opcode is made of lower-case letters, its operands are non-empty,
    trimmed and free of commas, [#] and line boundaries, and its comment is
    absent or non-empty, trimmed and on one line. *)
Theorem render_then_parse i :
  renderable i = true ->
  _parse_instruction (Instruction_str i) =
  Some (mkInstruction (opcode i) (args i) (comment i)
          (Some (Instruction_str i))).
Proof. apply render_parse. Qed.

Lemma render_then_parse_witness :
  _parse_instruction
    (Instruction_str
       (mkInstruction "move" ["$t2"; "$t0"]
          (Some "Optimized from: move $t1, $t0 and add $t2, $t1, $zero")
          None)) =
  Some (mkInstruction "move" ["$t2"; "$t0"]
          (Some "Optimized from: move $t1, $t0 and add $t2, $t1, $zero")
          (Some (Instruction_str
                   (mkInstruction "move" ["$t2"; "$t0"]
                      (Some "Optimized from: move $t1, $t0 and add $t2, $t1, $zero")
                      None)))).
Proof.
  apply (@render_then_parse
           (mkInstruction "move" ["$t2"; "$t0"]
              (Some "Optimized from: move $t1, $t0 and add $t2, $t1, $zero")
              None)).
  reflexivity.
Defined.

(** X12.  Every instruction the parser builds from a line is of that kind:
    its opcode is lower-case letters, its operands are non-empty, trimmed
    and free of commas and [#], and its comment is never the empty string
    (a bare [#] gives no comment) and is trimmed.  So parsing is stable
    under rendering: rendering a parsed instruction and parsing the result
    gives the same opcode, operands and comment. *)
Theorem parse_render_parse line i :
  string_forall (fun c => negb (is_linebreak c)) line = true ->
  _parse_instruction line = Some i ->
  renderable i = true /\
  _parse_instruction (Instruction_str i) =
  Some (mkInstruction (opcode i) (args i) (comment i)
          (Some (Instruction_str i))).
Proof.
  intros Hl H. pose proof (parsed_renderable line Hl H) as Hr.
  split; [exact Hr|now apply render_parse].
Qed.

Lemma parse_render_parse_witness :
  renderable
    (mkInstruction "add" ["$t0"; "$s0"; "$zero"] None
       (Some "  ADD $t0,, $s0 , $zero  #")) = true /\
  _parse_instruction
    (Instruction_str
       (mkInstruction "add" ["$t0"; "$s0"; "$zero"] None
          (Some "  ADD $t0,, $s0 , $zero  #"))) =
  Some (mkInstruction "add" ["$t0"; "$s0"; "$zero"] None
          (Some (Instruction_str
                   (mkInstruction "add" ["$t0"; "$s0"; "$zero"] None
                      (Some "  ADD $t0,, $s0 , $zero  #"))))).
Proof.
  apply (@parse_render_parse "  ADD $t0,, $s0 , $zero  #"); reflexivity.
Defined.

Lemma ident_char_not_space c : is_ident_char c = true -> isspace c = false.
Proof. by_char c. Qed.

Lemma ident_char_not_break c :
  is_ident_char c = true -> is_linebreak c = false.
Proof. by_char c. Qed.

Lemma ident_start_char c : is_ident_start c = true -> is_ident_char c = true.
Proof. by_char c. Qed.

Lemma lower_case_ident c : in_range 97 122 c = true -> is_ident_char c = true.
Proof. by_char c. Qed.

Lemma splitlines_from_plain s :
  forall cur,
    string_forall (fun c => negb (is_linebreak c)) s = true ->
    splitlines_from cur s =
    match (cur ++ s)%string with
    | EmptyString => []
    | line => [line]
    end.
Proof.
  induction s as [|c r IH]; intros cur H.
  - simpl. rewrite string_app_nil. now destruct cur.
  - simpl in H. apply andb_prop in H as [Hc Hr].
    apply negb_true_iff in Hc. simpl.
    rewrite (linebreak_cr c Hc), Hc, (IH _ Hr), string_app_assoc.
    reflexivity.
Qed.

(** A text without line boundaries is one line. *)
Lemma splitlines_one_line c r :
  string_forall (fun c => negb (is_linebreak c)) (String c r) = true ->
  splitlines (String c r) = [String c r].
Proof. intros H. unfold splitlines. now rewrite splitlines_from_plain. Qed.

Lemma take_while_whole p s :
  string_forall p s = true ->
  take_while p s = s /\ drop_while p s = EmptyString.
Proof.
  induction s as [|c r IH]; [now split|]. simpl. intros H.
  apply andb_prop in H as [Hc Hr]. rewrite Hc.
  destruct (IH Hr) as [-> ->]. now split.
Qed.

(** X13.  A Label renders as its name and a colon, and parsing that text
    gives one Label of the same name, without instruction, which
    [get_label] then finds: the attached instruction is not part of the
    rendering. *)
Theorem label_render_then_parse l :
  is_identifier (name l) = true ->
  parse_text (Label_str l) = [Lbl (mkLabel (name l) None)] /\
  get_label (parse_lines (splitlines (Label_str l))) (name l)
    = Some (mkLabel (name l) None).
Proof.
  intros Hid. unfold Label_str.
  assert (Hchars : string_forall is_ident_char (name l) = true).
  { destruct (name l) as [|c r]; [discriminate|]. simpl in *.
    apply andb_prop in Hid as [Hc Hr]. now rewrite (ident_start_char c Hc). }
  assert (Hnosp : string_forall (fun c => negb (isspace c))
                    (name l ++ ":")%string = true).
  { rewrite string_forall_app. apply andb_true_intro. split; [|reflexivity].
    eapply string_forall_impl; [|exact Hchars].
    intros c Hc. now rewrite (ident_char_not_space c Hc). }
  assert (Hnolb : string_forall (fun c => negb (is_linebreak c))
                    (name l ++ ":")%string = true).
  { rewrite string_forall_app. apply andb_true_intro. split; [|reflexivity].
    eapply string_forall_impl; [|exact Hchars].
    intros c Hc. now rewrite (ident_char_not_break c Hc). }
  assert (Hlines : splitlines (name l ++ ":")%string = [(name l ++ ":")%string]).
  { destruct (name l) as [|c r]; [discriminate|].
    now apply splitlines_one_line. }
  assert (Hline : line_elements (name l ++ ":")%string =
                  [Lbl (mkLabel (name l) None)]).
  { destruct (@label_line_match (name l) EmptyString Hid) as (H1 & H2 & H3).
    unfold line_elements, parse_line.
    rewrite (strip_no_space _ Hnosp).
    change (name l ++ ":" ++ "")%string with (name l ++ ":")%string in *.
    rewrite H1, H2, H3. reflexivity. }
  assert (Hparse : parse_text (name l ++ ":")%string =
                   [Lbl (mkLabel (name l) None)]).
  { rewrite parse_text_lines, Hlines. simpl. now rewrite Hline, app_nil_r. }
  split; [exact Hparse|].
  assert (H : table_ok (parse_lines (splitlines (name l ++ ":")%string))).
  { apply parse_lines_table. repeat split; [constructor|discriminate]. }
  destruct H as (_ & _ & H). rewrite H.
  change (contents (parse_lines (splitlines (name l ++ ":")%string)))
    with (parse_text (name l ++ ":")%string).
  rewrite Hparse. simpl. now rewrite String.eqb_refl.
Qed.

Lemma label_render_then_parse_witness :
  parse_text (Label_str (mkLabel "loop_1"
                           (Some (mkInstruction "jr" ["$ra"] None None)))) =
    [Lbl (mkLabel "loop_1" None)] /\
  get_label
    (parse_lines
       (splitlines
          (Label_str (mkLabel "loop_1"
                        (Some (mkInstruction "jr" ["$ra"] None None))))))
    "loop_1"
    = Some (mkLabel "loop_1" None).
Proof.
  apply (@label_render_then_parse
           (mkLabel "loop_1" (Some (mkInstruction "jr" ["$ra"] None None)))).
  reflexivity.
Defined.

Lemma rstrip_app_fixed x y :
  y <> EmptyString -> rstrip y = y -> rstrip (x ++ y)%string = (x ++ y)%string.
Proof.
  intros Hne Hy. rewrite rstrip_app, Hy. destruct y; [congruence|reflexivity].
Qed.

Lemma lower_case_not_break c :
  in_range 97 122 c = true -> is_linebreak c = false.
Proof. by_char c. Qed.

Lemma lower_case_not_hash c :
  in_range 97 122 c = true -> (code c =? 35) = false.
Proof. by_char c. Qed.

Lemma lower_case_start c :
  in_range 97 122 c = true -> is_ident_start c = true.
Proof. by_char c. Qed.

(** What the loop body makes of a trimmed line that starts with a
    lower-case opcode followed by a blank or by nothing. *)
Lemma opcode_line_elements op rest i :
  op <> EmptyString -> string_forall (in_range 97 122) op = true ->
  (rest = EmptyString \/ exists rest', rest = String " "%char rest') ->
  strip (op ++ rest)%string = (op ++ rest)%string ->
  _parse_instruction (op ++ rest)%string = Some i ->
  line_elements (op ++ rest)%string = [Instr i].
Proof.
  intros Hne Hop Hrest Hstrip Hparse.
  destruct op as [|c r]; [congruence|]. simpl in Hop.
  apply andb_prop in Hop as [Hc Hr].
  assert (Hid : string_forall is_ident_char r = true)
    by (eapply string_forall_impl; [apply lower_case_ident|exact Hr]).
  unfold line_elements, parse_line. rewrite Hstrip, Hparse.
  assert (Hcomment : comment_pattern_match (String c r ++ rest)%string = false).
  { unfold comment_pattern_match. simpl append.
    rewrite (@lstrip_fixed c _
               (alpha_not_space c (lower_case_alpha c Hc))).
    apply lower_case_not_hash, Hc. }
  assert (Hlabel : label_pattern_match (String c r ++ rest)%string = None).
  { unfold label_pattern_match. simpl append.
    rewrite (@lstrip_fixed c _
               (alpha_not_space c (lower_case_alpha c Hc))).
    rewrite (lower_case_start c Hc).
    destruct Hrest as [->|[rest' ->]].
    - rewrite string_app_nil.
      now destruct (take_while_whole is_ident_char r Hid) as [_ ->].
    - now rewrite (@drop_while_app is_ident_char r " "%char rest' Hid eq_refl). }
  rewrite Hcomment, Hlabel. reflexivity.
Qed.

Lemma bare_opcode_parse op :
  op <> EmptyString -> string_forall (in_range 97 122) op = true ->
  _parse_instruction op = Some (mkInstruction op [] None (Some op)).
Proof.
  intros Hne Hop.
  assert (Halpha : string_forall is_alpha op = true)
    by (eapply string_forall_impl; [apply lower_case_alpha|exact Hop]).
  assert (Hnosp : string_forall (fun c => negb (isspace c)) op = true).
  { eapply string_forall_impl; [|exact Halpha].
    intros c Hc. now rewrite (alpha_not_space c Hc). }
  unfold _parse_instruction, instruction_pattern_match.
  assert (Hls : lstrip op = op).
  { destruct op as [|c r]; [reflexivity|]. simpl in Halpha.
    apply andb_prop in Halpha as [Hc _].
    apply (@lstrip_fixed c _ (alpha_not_space c Hc)). }
  rewrite Hls. destruct (take_while_whole is_alpha op Halpha) as [-> ->].
  replace (is_empty op) with false
    by (destruct op; [now destruct Hne|reflexivity]).
  simpl. now rewrite (strip_no_space _ Hnosp), (lower_fixed _ Hop).
Qed.

Lemma print_parse_text i :
  renderable i = true ->
  parse_text (Instruction_str i) =
  [Instr (mkInstruction (opcode i) (args i) (comment i)
            (Some (strip (Instruction_str i))))].
Proof.
  intros Hren. pose proof (render_parse i Hren) as Hparse.
  unfold renderable in Hren.
  apply andb_prop in Hren as [H Hnote]. apply andb_prop in H as [H Hargs].
  apply andb_prop in H as [Hne Hop].
  assert (Hne' : opcode i <> EmptyString)
    by (intros E; rewrite E in Hne; discriminate).
  assert (Hopnb : string_forall (fun c => negb (is_linebreak c)) (opcode i)
                  = true).
  { eapply string_forall_impl; [|exact Hop].
    intros c Hc. now rewrite (lower_case_not_break c Hc). }
  assert (Hopns : string_forall (fun c => negb (isspace c)) (opcode i) = true).
  { eapply string_forall_impl; [|exact Hop].
    intros c Hc. now rewrite (alpha_not_space c (lower_case_alpha c Hc)). }
  assert (Hjoin : string_forall (fun c => negb (is_linebreak c))
                    (join ", " (args i)) = true).
  { apply join_tokens; try reflexivity. apply forallb_forall. intros x Hx.
    rewrite forallb_forall in Hargs.
    now destruct (token_ok_spec _ (Hargs x Hx)) as (_ & _ & _ & _ & Hb). }
  assert (Hshape : exists rest,
            Instruction_str i = (opcode i ++ String " "%char rest)%string /\
            string_forall (fun c => negb (is_linebreak c)) rest = true /\
            (rest = EmptyString /\ args i = [] /\ comment i = None \/
             rstrip rest = rest /\ rest <> EmptyString)).
  { unfold Instruction_str. destruct (comment i) as [c|] eqn:Ec.
    - destruct (note_ok_spec _ Hnote) as (He & Hs & Hb). rewrite He.
      exists (join ", " (args i) ++ " # " ++ c)%string.
      rewrite !string_app_assoc. split; [reflexivity|].
      split; [rewrite string_forall_app, Hjoin; simpl; exact Hb|].
      right.
      replace (join ", " (args i) ++ " # " ++ c)%string
        with ((join ", " (args i) ++ " # ") ++ c)%string
        by (now rewrite !string_app_assoc).
      split.
      + apply rstrip_app_fixed; [now destruct c|now apply strip_fixed_rstrip].
      + destruct c; [discriminate|].
        now destruct (join ", " (args i) ++ " # ")%string.
    - exists (join ", " (args i)). split; [reflexivity|].
      split; [exact Hjoin|].
      destruct (args i) as [|a l] eqn:Ea; [left; auto|right].
      destruct (join_trimmed a l Hargs) as [Hr (c0 & r0 & E & _)].
      split; [exact Hr|]. rewrite E. discriminate. }
  destruct Hshape as (rest & HS & Hrb & Hcase).
  assert (Hlines : splitlines (Instruction_str i) = [Instruction_str i]).
  { rewrite HS. destruct (opcode i) as [|c r]; [congruence|].
    apply splitlines_one_line.
    change (String c r ++ String " "%char rest)%string
      with (String c (r ++ String " "%char rest))%string.
    simpl in Hopnb. apply andb_prop in Hopnb as [Hc Hr].
    simpl. rewrite Hc, string_forall_app, Hr. simpl. exact Hrb. }
  rewrite parse_text_lines, Hlines. simpl. rewrite app_nil_r.
  assert (Hls : lstrip (Instruction_str i) = Instruction_str i).
  { rewrite HS. destruct (opcode i) as [|c r]; [congruence|].
    simpl in Hopns. apply andb_prop in Hopns as [Hc _].
    apply negb_true_iff in Hc. apply (@lstrip_fixed c _ Hc). }
  destruct Hcase as [(-> & Ea & Ec)|[Hr Hrne]].
  - (* the bare opcode, printed with a trailing blank *)
    assert (Hstrip : strip (Instruction_str i) = opcode i).
    { unfold strip. rewrite Hls, HS, rstrip_app. simpl rstrip at 1. cbv iota.
      apply strip_fixed_rstrip, strip_no_space, Hopns. }
    rewrite Hstrip.
    assert (Hraw : line_elements (Instruction_str i) =
                   line_elements (opcode i)).
    { unfold line_elements, parse_line.
      now rewrite Hstrip, (strip_no_space _ Hopns). }
    rewrite Hraw.
    rewrite <- (string_app_nil (opcode i)) at 1.
    rewrite (@opcode_line_elements (opcode i) EmptyString
               (mkInstruction (opcode i) [] None (Some (opcode i))));
      auto.
    + now rewrite Ea, Ec.
    + rewrite string_app_nil. apply strip_no_space, Hopns.
    + rewrite string_app_nil. now apply bare_opcode_parse.
  - assert (Hstrip : strip (Instruction_str i) = Instruction_str i).
    { unfold strip. rewrite Hls, HS.
      replace (opcode i ++ String " "%char rest)%string
        with ((opcode i ++ " ") ++ rest)%string
        by (now rewrite string_app_assoc).
      now apply rstrip_app_fixed. }
    rewrite Hstrip. rewrite HS in Hstrip, Hparse |- *.
    now apply opcode_line_elements; eauto.
Qed.

(** X14.  Printing an instruction and handing the text to [parse_text]
    gives back exactly that instruction as the only element, with the
    trimmed text as original_text, for every instruction of the kind the
    parser produces (lower-case opcode; operands non-empty, trimmed, free of
    commas, [#] and line boundaries; comment absent or non-empty, trimmed,
    on one line). *)
Theorem print_then_parse_text i :
  renderable i = true ->
  parse_text (Instruction_str i) =
  [Instr (mkInstruction (opcode i) (args i) (comment i)
            (Some (strip (Instruction_str i))))].
Proof. apply print_parse_text. Qed.

Lemma print_then_parse_text_witness :
  parse_text
    (Instruction_str (mkInstruction "sw" ["$t1"; "0($sp)"] (Some "spill") None))
  = [Instr (mkInstruction "sw" ["$t1"; "0($sp)"] (Some "spill")
              (Some (strip (Instruction_str
                              (mkInstruction "sw" ["$t1"; "0($sp)"]
                                 (Some "spill") None)))))].
Proof.
  apply (@print_then_parse_text
           (mkInstruction "sw" ["$t1"; "0($sp)"] (Some "spill") None)).
  reflexivity.
Defined.

(** ** From text to text *)

(** X15.  End to end, as the driver runs it: the one-line text
    [add rd, rs, $zero] (for any two operand tokens) parses and optimizes to
    the single instruction [move rd, rs] whose comment quotes the source
    line, and that instruction prints as
    [move rd, rs # Optimized from: add rd, rs, $zero]. *)
Theorem add_zero_text_to_text rd rs :
  token_ok rd = true -> token_ok rs = true ->
  let line := ("add " ++ rd ++ ", " ++ rs ++ ", $zero")%string in
  optimize (parse_text line) =
    Ok [Instr (mkInstruction "move" [rd; rs]
                 (Some ("Optimized from: " ++ line)%string) None)] /\
  Instruction_str (mkInstruction "move" [rd; rs]
                     (Some ("Optimized from: " ++ line)%string) None) =
    ("move " ++ rd ++ ", " ++ rs ++ " # Optimized from: " ++ line)%string.
Proof.
  intros Hrd Hrs line.
  set (i := mkInstruction "add" [rd; rs; "$zero"] None None).
  assert (Hren : renderable i = true).
  { unfold renderable, i. simpl. now rewrite Hrd, Hrs. }
  assert (Hline : Instruction_str i = line) by reflexivity.
  assert (Hstrip : strip line = line).
  { unfold strip. change (lstrip line) with line. unfold line.
    replace ("add " ++ rd ++ ", " ++ rs ++ ", $zero")%string
      with (("add " ++ rd ++ ", " ++ rs ++ ", ") ++ "$zero")%string
      by (now rewrite !string_app_assoc).
    now apply rstrip_app_fixed. }
  split.
  - pose proof (print_parse_text i Hren) as Hp.
    rewrite Hline, Hstrip in Hp. unfold i in Hp.
    cbn [opcode args comment] in Hp. rewrite Hp. unfold optimize.
    rewrite optimize_with_cons.
    rewrite (@cursor_add_zero
               (mkInstruction "add" [rd; rs; "$zero"] None (Some line))
               rd rs [] eq_refl eq_refl).
    reflexivity.
  - unfold Instruction_str. simpl. now rewrite !string_app_assoc.
Qed.

Lemma add_zero_text_to_text_witness :
  optimize (parse_text ("add " ++ "$t0" ++ ", " ++ "$s0" ++ ", $zero")%string) =
    Ok [Instr (mkInstruction "move" ["$t0"; "$s0"]
                 (Some ("Optimized from: "
                          ++ ("add " ++ "$t0" ++ ", " ++ "$s0" ++ ", $zero"))%string)
                 None)] /\
  Instruction_str
    (mkInstruction "move" ["$t0"; "$s0"]
       (Some ("Optimized from: "
                ++ ("add " ++ "$t0" ++ ", " ++ "$s0" ++ ", $zero"))%string)
       None) =
    ("move " ++ "$t0" ++ ", " ++ "$s0" ++ " # Optimized from: "
       ++ ("add " ++ "$t0" ++ ", " ++ "$s0" ++ ", $zero"))%string.
Proof. apply (@add_zero_text_to_text "$t0" "$s0"); reflexivity. Defined.
